(** * cryptoarb: the arbitrage engine and the paper trader

    A shallow embedding of [arbitrage_engine.py] and [paper_trader.py].

    Numbers.  Python floats are modelled by exact rationals ([Q]): the
    functions below are the program with every operation on floats read
    as the operation on the numbers.  The edge weights [-math.log(x)]
    and the distances that Bellman-Ford sums from them, together with
    [float('inf')], are kept in the module [LogFloat] as the argument of
    the logarithm; the lemmas on [LogFloat] prove this representation
    faithful to the real numbers of the Standard Library.  The theorems
    on the graph and on the detection call are stated with the tests
    and the expressions of the program itself ([rate <= 0],
    [distances[u] + weight < distances[v]], the argument handed to
    [math.log]), not with what these tests amount to on the rationals.
    Where the order of the operations on doubles decides, the module
    [Binary64] holds the two profit computations on the binary64 floats
    of the kernel.

    Dictionaries.  [latest_prices] and [graph] are iterated by the code,
    and a Python dict iterates in insertion order, so both are
    association lists in insertion order.  [distances], [predecessors]
    and [balances] are only indexed and updated: they are [gmap]s.
    [currencies] is a Python [set]; its iteration order is decided by
    the interpreter's string hashing, so the order is an explicit
    argument ([set_iter]) of the detection call.

    Exceptions.  Code that can raise returns [res]. *)

From Stdlib Require Import QArith Qreals Reals Lqa Lra.
From Stdlib Require Floats.
From stdpp Require Import gmap strings list fin_maps.

#[local] Open Scope Q_scope.

(** ** Exceptions *)

Inductive exn : Set :=
| KeyError
| TypeError
| ValueError
| IndexError
| ZeroDivisionError
| OutOfFuel.  (* not a Python exception: a [while] loop of the model ran out of fuel *)

Inductive res (A : Type) : Type :=
| Ok (a : A)
| Raise (e : exn).
Arguments Ok {A} a.
Arguments Raise {A} e.

#[global] Instance res_ret : MRet res := fun A a => Ok a.
#[global] Instance res_bind : MBind res := fun A B f m =>
  match m with
  | Ok a => f a
  | Raise e => Raise e
  end.

(** [d[k]] on a dict held as a [gmap]. *)
Definition getitem {V} (d : gmap string V) (k : string) : res V :=
  match d !! k with
  | Some v => Ok v
  | None => Raise KeyError
  end.

(** [l[i]] on a list, for an index that is not negative. *)
Definition list_getitem {A} (l : list A) (i : nat) : res A :=
  match l !! i with
  | Some v => Ok v
  | None => Raise IndexError
  end.

(** A [for] loop whose body may raise. *)
Fixpoint for_each {A S} (body : S → A → res S) (s : S) (l : list A) : res S :=
  match l with
  | [] => Ok s
  | x :: l => s' ← body s x; for_each body s' l
  end.

(** A [for] loop whose body may [return] from the enclosing function:
    the body answers [Some r] when it returned [r], [None] when the loop
    goes on. *)
Fixpoint for_return {A R} (body : A → res (option R)) (l : list A) : res (option R) :=
  match l with
  | [] => Ok None
  | x :: l =>
      r ← body x;
      match r with
      | Some v => Ok (Some v)
      | None => for_return body l
      end
  end.

(** ** Rational comparisons and division *)

Definition Qltb (a b : Q) : bool := negb (Qle_bool b a).
Definition Qneqb (a b : Q) : bool := negb (Qeq_bool a b).

(** [a / b] on floats: raises [ZeroDivisionError] when [b] is zero. *)
Definition truediv (a b : Q) : res Q :=
  if Qeq_bool b 0 then Raise ZeroDivisionError else Ok (a / b).

(** ** Floats in logarithmic form *)

Module LogFloat.

(** The float [-math.log(arg)] for [0 < arg]; [arg = 0] stands for
    [float('inf')].  A sum of such floats is again one, of the product
    of the arguments. *)
Record t : Set := NegLog { arg : Q }.

Definition inf : t := NegLog 0.
Definition zero : t := NegLog 1.

(** [-math.log(x)]: a [ValueError] (math domain error) unless [0 < x]. *)
Definition neg_log (x : Q) : res t :=
  if Qle_bool x 0 then Raise ValueError else Ok (NegLog x).

Definition add (a b : t) : t := NegLog (arg a * arg b).
Definition ltb (a b : t) : bool := Qltb (arg b) (arg a).

(** The value denoted, as an extended real: [None] is [+inf]. *)
Definition to_R (a : t) : option R :=
  if Qltb 0 (arg a) then Some (- ln (Q2R (arg a)))%R else None.

Definition ext_add (x y : option R) : option R :=
  match x, y with
  | Some x, Some y => Some (x + y)%R
  | _, _ => None
  end.

Definition ext_lt (x y : option R) : Prop :=
  match x, y with
  | Some x, Some y => (x < y)%R
  | Some _, None => True
  | None, _ => False
  end.

(** Floats of this form that the program can hold. *)
Definition wf (a : t) : Prop := 0 <= arg a.

End LogFloat.

(** ** Python strings *)

(** [s.endswith(suffix)] *)
Definition endswith (s suffix : string) : bool :=
  (String.length suffix <=? String.length s)%nat &&
  String.eqb
    (String.substring (String.length s - String.length suffix) (String.length suffix) s)
    suffix.

(** [s[:n]] and [s[n:]] for [0 <= n], and [s[:-n]] for [0 < n]. *)
Definition slice_to (s : string) (n : nat) : string := String.substring 0 n s.
Definition slice_from (s : string) (n : nat) : string :=
  String.substring n (String.length s - n) s.
Definition slice_drop_last (s : string) (n : nat) : string :=
  String.substring 0 (String.length s - n) s.

(** ** The price table *)

(** A quote as the feed writes it: [{"price": ..., "last_update": ...}].
    [price = None] is a quote whose price is [None]. *)
Record Quote : Set := { price : option Q; last_update : Z }.

(** [latest_prices], in insertion order. *)
Definition price_table : Set := list (string * Quote).

(** [latest_prices.get(symbol, None)] *)
Fixpoint tbl_get (latest_prices : price_table) (symbol : string) : option Quote :=
  match latest_prices with
  | [] => None
  | (k, data) :: rest => if String.eqb k symbol then Some data else tbl_get rest symbol
  end.

(** [symbol in latest_prices] *)
Definition tbl_mem (latest_prices : price_table) (symbol : string) : bool :=
  match tbl_get latest_prices symbol with
  | Some _ => true
  | None => false
  end.

(** [data["price"]] followed by the arithmetic on it: a price that is
    [None] is a [TypeError] at its first use, [1 / inv_rate] or
    [amount * rate]; nothing is written in between. *)
Definition price_item (data : Quote) : res Q :=
  match price data with
  | Some p => Ok p
  | None => Raise TypeError
  end.

(** ** paper_trader.py *)

Module PaperTrader.

Record TradeDetails : Type := {
  timestamp : Z;
  strategy : string;
  path : string;
  initial_amount : Q;
  final_amount : Q;
  net_profit : Q;
  balances_after : gmap string Q
}.

Record t : Type := {
  balances : gmap string Q;
  trade_log : list TradeDetails
}.

(** What a call prints. *)
Inductive message : Type :=
| InsufficientBalance (strategy currency : string)
| Executed (details : TradeDetails).

(** [self.balances.get(currency, 0)] *)
Definition balance_of (self : t) (currency : string) : Q :=
  default 0 (balances self !! currency).

Definition execute_triangular_trade (self : t) (triplet : string * string * string)
    (trade_amount rate_AB rate_BC rate_CA net_profit : Q) (timestamp : Z)
  : t * message :=
  let '(A, B, C) := triplet in
  if Qltb (balance_of self A) trade_amount then
    (self, InsufficientBalance "triangular" A)
  else
    let amount_B := trade_amount * rate_AB * (1 - (1 # 1000)) in
    let amount_C := amount_B * rate_BC * (1 - (1 # 1000)) in
    let final_amount_A := amount_C * rate_CA * (1 - (1 # 1000)) in
    let old_balance := balance_of self A in
    let balances' := <[A := old_balance - trade_amount + final_amount_A]> (balances self) in
    let trade_details := {|
      timestamp := timestamp;
      strategy := "Triangular";
      path := A +:+ " -> " +:+ B +:+ " -> " +:+ C +:+ " -> " +:+ A;
      initial_amount := trade_amount;
      final_amount := final_amount_A;
      net_profit := final_amount_A - trade_amount;
      balances_after := balances'
    |} in
    ({| balances := balances'; trade_log := trade_log self ++ [trade_details] |},
     Executed trade_details).

Definition execute_cycle_trade (self : t) (cycle : list string)
    (trade_amount net_profit : Q) (timestamp : Z)
  : res (t * message) :=
  start_currency ← list_getitem cycle 0;
  if Qltb (balance_of self start_currency) trade_amount then
    Ok (self, InsufficientBalance "cycle" start_currency)
  else
    let final_amount := trade_amount * (1 + net_profit) in
    let old_balance := balance_of self start_currency in
    let balances' :=
      <[start_currency := old_balance - trade_amount + final_amount]> (balances self) in
    let trade_details := {|
      timestamp := timestamp;
      strategy := "BellmanFord";
      path := String.concat " -> " cycle +:+ " -> " +:+ start_currency;
      initial_amount := trade_amount;
      final_amount := final_amount;
      net_profit := final_amount - trade_amount;
      balances_after := balances'
    |} in
    Ok ({| balances := balances'; trade_log := trade_log self ++ [trade_details] |},
        Executed trade_details).

End PaperTrader.

(** ** arbitrage_engine.py *)

(** The calls the engine makes on its paper trader. *)
Record TriangularCall : Type := {
  tc_triplet : string * string * string;
  tc_trade_amount : Q;
  tc_rate_AB : Q;
  tc_rate_BC : Q;
  tc_rate_CA : Q;
  tc_net_profit : Q;
  tc_timestamp : Z
}.

Record CycleCall : Type := {
  cc_cycle : list string;
  cc_trade_amount : Q;
  cc_net_profit : Q;
  cc_timestamp : Z
}.

(** [self.fee_rate] as [__init__] sets it. *)
Definition default_fee_rate : Q := 1 # 1000.

Definition get_rate (latest_prices : price_table) (base quote pair_symbol : string)
  : res (option Q) :=
  match tbl_get latest_prices pair_symbol with
  | None => Ok None
  | Some data =>
      match price data with
      | None => Ok None
      | Some price =>
          if String.eqb pair_symbol (base +:+ quote) then Ok (Some price)
          else if String.eqb pair_symbol (quote +:+ base) then
            if Qneqb price 0 then r ← truediv 1 price; Ok (Some r) else Ok None
          else Ok None
      end
  end.

(** [f"{X}{Y}" if f"{X}{Y}" in self.latest_prices else f"{Y}{X}"] *)
Definition pair_for (latest_prices : price_table) (X Y : string) : string :=
  if tbl_mem latest_prices (X +:+ Y) then X +:+ Y else Y +:+ X.

(** The rate from [base] to [quote] as the triangular check resolves it:
    the pair symbol is chosen first, then handed to [get_rate]. *)
Definition resolve (latest_prices : price_table) (base quote : string) : res (option Q) :=
  get_rate latest_prices base quote (pair_for latest_prices base quote).

(** The body of the loop of [run_triangular_arbitrage_check]: the call
    made on the paper trader for one triplet, if any.  [now] is the
    clock read at the call. *)
Definition check_triplet (latest_prices : price_table) (fee_rate : Q) (now : Z)
    (triplet : string * string * string) : res (option TriangularCall) :=
  let '(A, B, C) := triplet in
  let pair_AB := pair_for latest_prices A B in
  let pair_BC := pair_for latest_prices B C in
  let pair_CA := pair_for latest_prices C A in
  if negb (tbl_mem latest_prices pair_AB) || negb (tbl_mem latest_prices pair_BC)
     || negb (tbl_mem latest_prices pair_CA)
  then Ok None
  else
    rate_AB ← get_rate latest_prices A B pair_AB;
    rate_BC ← get_rate latest_prices B C pair_BC;
    rate_CA ← get_rate latest_prices C A pair_CA;
    match rate_AB, rate_BC, rate_CA with
    | Some rate_AB, Some rate_BC, Some rate_CA =>
        let raw_product := rate_AB * rate_BC * rate_CA in
        let fee_adjustment := (1 - fee_rate) ^ 3 in
        let effective_product := raw_product * fee_adjustment in
        if Qltb 1 effective_product then
          let net_profit := effective_product - 1 in
          Ok (Some {|
            tc_triplet := triplet;
            tc_trade_amount := 100;
            tc_rate_AB := rate_AB;
            tc_rate_BC := rate_BC;
            tc_rate_CA := rate_CA;
            tc_net_profit := net_profit;
            tc_timestamp := now
          |})
        else Ok None
    | _, _, _ => Ok None
    end.

(** What a triplet contributes to the calls of one scan. *)
Definition calls_of (lp : price_table) (fee : Q) (now : Z)
    (triplet : string * string * string) : list TriangularCall :=
  match check_triplet lp fee now triplet with
  | Ok (Some call) => [call]
  | _ => []
  end.

(** The calls made on the paper trader, in order. *)
Definition run_triangular_arbitrage_check (latest_prices : price_table) (fee_rate : Q)
    (now : Z) (triangular_triplets : list (string * string * string))
  : res (list TriangularCall) :=
  for_each
    (fun calls triplet =>
       call ← check_triplet latest_prices fee_rate now triplet;
       match call with
       | Some call => Ok (calls ++ [call])
       | None => Ok calls
       end)
    [] triangular_triplets.

(** [graph]: currency to the list of its outgoing edges, in insertion
    order of the keys. *)
Definition graph_t : Set := list (string * list (string * LogFloat.t)).

(** [if u not in graph: graph[u] = []] followed by [graph[u].append(e)] *)
Fixpoint graph_append (graph : graph_t) (u : string) (e : string * LogFloat.t) : graph_t :=
  match graph with
  | [] => [(u, [e])]
  | (k, es) :: rest =>
      if String.eqb k u then (k, es ++ [e]) :: rest
      else (k, es) :: graph_append rest u e
  end.

(** How a pair symbol is split into base and quote. *)
Definition split_symbol (symbol : string) : string * string :=
  if endswith symbol "USDT" then (slice_drop_last symbol 4, "USDT"%string)
  else (slice_to symbol 3, slice_from symbol 3).

(** The body of the loop that builds the graph. *)
Definition add_symbol (fee_rate : Q) (st : graph_t * gset string) (item : string * Quote)
  : res (graph_t * gset string) :=
  let '(graph, currencies) := st in
  let '(symbol, data) := item in
  if (String.length symbol <? 6)%nat then Ok (graph, currencies)
  else
    let '(base, quote) := split_symbol symbol in
    let currencies := currencies ∪ {[base]} ∪ {[quote]} in
    match price data with
    | None => Ok (graph, currencies)
    | Some rate =>
        if Qle_bool rate 0 then Ok (graph, currencies)
        else
          weight ← LogFloat.neg_log (rate * (1 - fee_rate));
          let graph := graph_append graph base (quote, weight) in
          if Qneqb rate 0 then
            inv ← truediv 1 rate;
            inv_weight ← LogFloat.neg_log (inv * (1 - fee_rate));
            Ok (graph_append graph quote (base, inv_weight), currencies)
          else Ok (graph, currencies)
    end.

Definition build_graph (latest_prices : price_table) (fee_rate : Q)
  : res (graph_t * gset string) :=
  for_each (add_symbol fee_rate) ([], ∅) latest_prices.

(** The first [while] loop of [reconstruct_cycle]: the vertex at which
    the walk along the predecessors first repeats, or [None] when the
    walk reaches a vertex without predecessor. *)
Fixpoint find_cycle_start (fuel : nat) (predecessors : gmap string (option string))
    (visited : gset string) (current : string) : res (option string) :=
  if decide (current ∈ visited) then Ok (Some current)
  else
    match fuel with
    | O => Raise OutOfFuel
    | S fuel =>
        next ← getitem predecessors current;
        match next with
        | None => Ok None
        | Some next =>
            find_cycle_start fuel predecessors ({[current]} ∪ visited) next
        end
    end.

(** The second [while] loop: [current] is [None] when the predecessor
    read last was [None]; indexing [predecessors] with it is a
    [KeyError]. *)
Fixpoint collect_cycle (fuel : nat) (predecessors : gmap string (option string))
    (cycle_start : string) (cycle : list string) (current : option string)
  : res (list string) :=
  if decide (current = Some cycle_start) then Ok cycle
  else
    match fuel with
    | O => Raise OutOfFuel
    | S fuel =>
        match current with
        | None => Raise KeyError
        | Some c =>
            next ← getitem predecessors c;
            collect_cycle fuel predecessors cycle_start (cycle ++ [c]) next
        end
    end.

Definition reconstruct_cycle (predecessors : gmap string (option string))
    (start_vertex : string) : res (option (list string)) :=
  found ← find_cycle_start (S (size predecessors)) predecessors ∅ start_vertex;
  match found with
  | None => Ok None
  | Some cycle_start =>
      current ← getitem predecessors cycle_start;
      cycle ← collect_cycle (size predecessors) predecessors cycle_start
                [cycle_start] current;
      Ok (Some (rev cycle))
  end.

(** The rate that [calculate_cycle_profit] uses for the leg from [A] to [B]. *)
Definition leg_rate (latest_prices : price_table) (A B : string) : res Q :=
  let direct_symbol := A +:+ B in
  let inverse_symbol := B +:+ A in
  match tbl_get latest_prices direct_symbol with
  | Some data => price_item data
  | None =>
      match tbl_get latest_prices inverse_symbol with
      | Some data =>
          inv_rate ← price_item data;
          if Qneqb inv_rate 0 then truediv 1 inv_rate else Ok 0
      | None => Ok 1
      end
  end.

Definition calculate_cycle_profit (latest_prices : price_table) (fee_rate : Q)
    (cycle : list string) : res Q :=
  for_each
    (fun amount i =>
       A ← list_getitem cycle i;
       B ← list_getitem cycle ((i + 1) mod length cycle)%nat;
       rate ← leg_rate latest_prices A B;
       Ok (amount * rate * (1 - fee_rate)))
    1 (seq 0 (length cycle)).

(** One edge of a relaxation pass. *)
Definition relax_edge (u : string)
    (st : gmap string LogFloat.t * gmap string (option string))
    (e : string * LogFloat.t)
  : res (gmap string LogFloat.t * gmap string (option string)) :=
  let '(distances, predecessors) := st in
  let '(v, weight) := e in
  du ← getitem distances u;
  dv ← getitem distances v;
  if LogFloat.ltb (LogFloat.add du weight) dv then
    Ok (<[v := LogFloat.add du weight]> distances, <[v := Some u]> predecessors)
  else Ok (distances, predecessors).

(** One pass over all edges. *)
Definition relax_pass (graph : graph_t)
    (st : gmap string LogFloat.t * gmap string (option string))
  : res (gmap string LogFloat.t * gmap string (option string)) :=
  for_each (fun st '(u, edges) => for_each (relax_edge u) st edges) st graph.

(** The state after the [len(currencies) - 1] passes from [start]. *)
Definition relax_from (graph : graph_t) (currencies : gset string) (start : string)
  : res (gmap string LogFloat.t * gmap string (option string)) :=
  let distances := <[start := LogFloat.zero]> (gset_to_gmap LogFloat.inf currencies) in
  let predecessors : gmap string (option string) := gset_to_gmap None currencies in
  for_each (fun st _ => relax_pass graph st) (distances, predecessors)
    (seq 0 (size currencies - 1)).

(** What the negative-cycle check does with one edge: [None] when the
    edge does not relax (the loop goes on); otherwise the function
    returns, after the call on the paper trader when there is one. *)
Definition check_edge (latest_prices : price_table) (fee_rate : Q) (now : Z)
    (distances : gmap string LogFloat.t) (predecessors : gmap string (option string))
    (u : string) (e : string * LogFloat.t) : res (option (option CycleCall)) :=
  let '(v, weight) := e in
  du ← getitem distances u;
  dv ← getitem distances v;
  if LogFloat.ltb (LogFloat.add du weight) dv then
    cycle ← reconstruct_cycle predecessors v;
    match cycle with
    | Some (c :: cs) =>
        let cycle := c :: cs in
        profit ← calculate_cycle_profit latest_prices fee_rate cycle;
        if Qltb 1 profit then
          let net_profit := profit - 1 in
          Ok (Some (Some {|
            cc_cycle := cycle;
            cc_trade_amount := 100;
            cc_net_profit := net_profit;
            cc_timestamp := now
          |}))
        else Ok (Some None)
    | _ => Ok (Some None)
    end
  else Ok None.

(** The body of the loop over the start vertices. *)
Definition bellman_ford_from (latest_prices : price_table) (fee_rate : Q) (now : Z)
    (graph : graph_t) (currencies : gset string) (start : string)
  : res (option (option CycleCall)) :=
  '(distances, predecessors) ← relax_from graph currencies start;
  for_return
    (fun '(u, edges) =>
       for_return (check_edge latest_prices fee_rate now distances predecessors u) edges)
    graph.

(** The call made on the paper trader, if any.  [set_iter] is the order
    in which Python iterates over the set [currencies]. *)
Definition run_bellman_ford_arbitrage_check (set_iter : gset string → list string)
    (latest_prices : price_table) (fee_rate : Q) (now : Z) : res (option CycleCall) :=
  '(graph, currencies) ← build_graph latest_prices fee_rate;
  r ← for_return (bellman_ford_from latest_prices fee_rate now graph currencies)
        (set_iter currencies);
  Ok (default None r).

(** ** The replay of a cycle in the words of the specification *)

(** The consecutive pairs of a cycle, the last element paired with the
    first. *)
Definition legs (cycle : list string) : list (string * string) :=
  zip cycle (rotate 1 cycle).

(** The rate of a leg: the rate the resolver gives, and 1 when no rate
    resolves. *)
Definition spec_leg_rate (latest_prices : price_table) (X Y : string) : Q :=
  match resolve latest_prices X Y with
  | Ok (Some r) => r
  | _ => 1
  end.

(** Start from 1; for each leg multiply by [rate * (1 - fee_rate)]. *)
Definition spec_cycle_profit (latest_prices : price_table) (fee_rate : Q)
    (cycle : list string) : Q :=
  fold_left
    (fun amount '(X, Y) => amount * spec_leg_rate latest_prices X Y * (1 - fee_rate))
    (legs cycle) 1.

(** ** The graph in the words of the specification *)

(** An edge: source, target, weight. *)
Definition edge : Set := string * string * LogFloat.t.

(** The edges of a graph, vertex by vertex. *)
Definition graph_edges (graph : graph_t) : list edge :=
  flat_map (fun '(u, edges) => map (fun '(v, w) => (u, v, w)) edges) graph.

(** The edges a pair symbol stands for: a symbol of length at least 6
    with a positive price gives a forward edge from base to quote and a
    reverse edge from quote to base; any other symbol gives none. *)
Definition symbol_edges (fee_rate : Q) (item : string * Quote) : list edge :=
  let '(symbol, data) := item in
  if (6 <=? String.length symbol)%nat then
    match price data with
    | Some p =>
        if Qltb 0 p then
          let '(base, quote) := split_symbol symbol in
          [ (base, quote, LogFloat.NegLog (p * (1 - fee_rate)));
            (quote, base, LogFloat.NegLog (1 / p * (1 - fee_rate))) ]
        else []
    | None => []
    end
  else [].

(** The currencies a pair symbol names, whatever its quote. *)
Definition symbol_currencies (item : string * Quote) : gset string :=
  if (6 <=? String.length item.1)%nat then
    {[ (split_symbol item.1).1 ]} ∪ {[ (split_symbol item.1).2 ]}
  else ∅.

Definition table_currencies (latest_prices : price_table) : gset string :=
  ⋃ (symbol_currencies <$> latest_prices).

(** The graph obtained by appending edges one after another. *)
Definition graph_of_edges (edges : list edge) : graph_t :=
  fold_left (fun graph '(u, v, w) => graph_append graph u (v, w)) edges [].

(** ** Walks along the predecessors *)

(** The predecessor of a vertex, when it has one. *)
Definition pred_of (predecessors : gmap string (option string)) (c : string)
  : option string :=
  mjoin (predecessors !! c).

(** The vertex reached after [n] steps along the predecessors. *)
Fixpoint iter_pred (predecessors : gmap string (option string)) (n : nat) (c : string)
  : option string :=
  match n with
  | O => Some c
  | S n => pred_of predecessors c ≫= iter_pred predecessors n
  end.

(** ** What a run yields, apart from the clock *)




(** ** Invariants of the detection call *)

(** A graph over the currencies [cs] whose weights are logarithms of
    positive numbers. *)
Definition graph_ok (cs : gset string) (graph : graph_t) : Prop :=
  ∀ u v w, (u, v, w) ∈ graph_edges graph → u ∈ cs ∧ v ∈ cs ∧ 0 < LogFloat.arg w.

(** The state of Bellman-Ford over the currencies [cs]: both dicts have
    exactly the currencies as keys, every distance is a float that the
    program can hold, and every predecessor is a currency. *)
Definition bf_inv (cs : gset string)
    (st : gmap string LogFloat.t * gmap string (option string)) : Prop :=
  dom st.1 = cs ∧ dom st.2 = cs
  ∧ (∀ c x, st.1 !! c = Some x → LogFloat.wf x)
  ∧ (∀ c q, st.2 !! c = Some (Some q) → q ∈ cs).


(** ** Sample data *)

(** [triangular_triplets] as [__init__] sets it. *)
Definition default_triplets : list (string * string * string) :=
  [ ("USDT", "BTC", "ETH"); ("USDT", "BTC", "BNB"); ("BTC", "ETH", "USDT") ]%string.

(** A table with a direct quote, a quote of price zero and a quote
    without price. *)
Definition table_c3 : price_table :=
  [ ("BTCUSDT"%string, {| price := Some 20000; last_update := 0 |});
    ("ETHBTC"%string, {| price := Some (1 # 20); last_update := 0 |});
    ("XRPBTC"%string, {| price := Some 0; last_update := 0 |});
    ("BNBBTC"%string, {| price := None; last_update := 0 |}) ].

(** A table on which the first triplet is profitable. *)
Definition table_triangular : price_table :=
  [ ("USDTBTC"%string, {| price := Some 20000; last_update := 0 |});
    ("BTCETH"%string, {| price := Some (5 # 100); last_update := 0 |});
    ("ETHUSDT"%string, {| price := Some 21500; last_update := 0 |}) ].

(** A table whose only quote between BTC and ETH is stored as ETHBTC,
    with price zero. *)
Definition table_zero_inverse : price_table :=
  [ ("ETHBTC"%string, {| price := Some 0; last_update := 0 |});
    ("ETHXRP"%string, {| price := Some 2; last_update := 0 |});
    ("XRPBTC"%string, {| price := Some 3; last_update := 0 |}) ].



(** Two quotes between BTC and ETH, one in each orientation. *)
Definition table_two_way : price_table :=
  [ ("BTCETH"%string, {| price := Some 2; last_update := 0 |});
    ("ETHBTC"%string, {| price := Some 1; last_update := 0 |}) ].

(** A wallet with 50 USDT. *)
Definition trader_50 : PaperTrader.t :=
  {| PaperTrader.balances := {[ "USDT"%string := 50 ]}; PaperTrader.trade_log := [] |}.

(** A wallet with 1000 USDT and 2 BTC. *)
Definition trader_1000 : PaperTrader.t :=
  {| PaperTrader.balances := <[ "USDT"%string := 1000 ]> {[ "BTC"%string := 2 ]};
     PaperTrader.trade_log := [] |}.

Definition iter_reversed (currencies : gset string) : list string :=
  rev (elements currencies).


(** ** Tactics *)

(* [lra] and [nra] over the rationals and over the reals. *)
Ltac qlra := Lqa.lra.
Ltac qnra := Lqa.nra.
Ltac rlra := Lra.lra.

(** ** More sample data *)

(** Predecessors that form the cycle BTC, ETH, with XRP leading into it. *)
Definition preds_cycle : gmap string (option string) :=
  <["XRP"%string := Some "BTC"%string]>
    (<["BTC"%string := Some "ETH"%string]> {["ETH"%string := Some "BTC"%string]}).

(** Predecessors that end at a vertex without predecessor. *)
Definition preds_open : gmap string (option string) :=
  <["ETH"%string := Some "BTC"%string]> {["BTC"%string := None]}.

(** ** What the relaxation passes keep *)

(** Over a graph, from a start vertex: every distance is a float that
    the program can hold; a vertex with a predecessor has a finite
    distance and hangs on an edge of the graph from its predecessor;
    the distance of the start vertex is at most 0; a vertex other than
    the start vertex that has no predecessor is at infinite distance. *)
Definition bf_sound (graph : graph_t) (start : string)
    (st : gmap string LogFloat.t * gmap string (option string)) : Prop :=
  (∀ c x, st.1 !! c = Some x → LogFloat.wf x)
  ∧ (∀ v u, st.2 !! v = Some (Some u) →
       (∃ w, (u, v, w) ∈ graph_edges graph)
       ∧ ∃ x, st.1 !! v = Some x ∧ 0 < LogFloat.arg x)
  ∧ (∀ x, st.1 !! start = Some x → 1 <= LogFloat.arg x)
  ∧ (∀ v, v ≠ start → st.2 !! v = Some None → st.1 !! v = Some LogFloat.inf).

(** ** One tick of [detection_scheduler] *)

(** The call on the paper trader that a [TriangularCall] stands for. *)
Definition deliver_triangular (trader : PaperTrader.t) (call : TriangularCall)
  : PaperTrader.t :=
  (PaperTrader.execute_triangular_trade trader (tc_triplet call) (tc_trade_amount call)
     (tc_rate_AB call) (tc_rate_BC call) (tc_rate_CA call) (tc_net_profit call)
     (tc_timestamp call)).1.

(** [run_triangular_arbitrage_check] with its calls on the paper trader
    made as they come: the trader after the loop, and the exception
    that ended the loop, if any. *)
Fixpoint triangular_pass (latest_prices : price_table) (fee_rate : Q) (now : Z)
    (triangular_triplets : list (string * string * string)) (trader : PaperTrader.t)
  : PaperTrader.t * option exn :=
  match triangular_triplets with
  | [] => (trader, None)
  | triplet :: rest =>
      match check_triplet latest_prices fee_rate now triplet with
      | Raise e => (trader, Some e)
      | Ok None => triangular_pass latest_prices fee_rate now rest trader
      | Ok (Some call) =>
          triangular_pass latest_prices fee_rate now rest (deliver_triangular trader call)
      end
  end.

(** [run_bellman_ford_arbitrage_check] with its call on the paper
    trader. *)
Definition cycle_pass (set_iter : gset string → list string)
    (latest_prices : price_table) (fee_rate : Q) (now : Z) (trader : PaperTrader.t)
  : PaperTrader.t * option exn :=
  match run_bellman_ford_arbitrage_check set_iter latest_prices fee_rate now with
  | Raise e => (trader, Some e)
  | Ok None => (trader, None)
  | Ok (Some call) =>
      match PaperTrader.execute_cycle_trade trader (cc_cycle call) (cc_trade_amount call)
              (cc_net_profit call) (cc_timestamp call) with
      | Ok (trader', _) => (trader', None)
      | Raise e => (trader, Some e)
      end
  end.

(** The body of the loop of [detection_scheduler], the wait apart: the
    two checks inside a [try]; the exception caught, if any, is
    reported. *)
Definition detection_tick (set_iter : gset string → list string)
    (latest_prices : price_table) (fee_rate : Q)
    (triangular_triplets : list (string * string * string)) (now : Z)
    (trader : PaperTrader.t) : PaperTrader.t * option exn :=
  match triangular_pass latest_prices fee_rate now triangular_triplets trader with
  | (trader, Some e) => (trader, Some e)
  | (trader, None) => cycle_pass set_iter latest_prices fee_rate now trader
  end.



(** ** Walks in the graph *)










(** ** The test of the loops over the edges *)

(** [distances[u] + weight < distances[v]], for the edge from [u] to
    [v]. *)
Definition still_relaxes (distances : gmap string LogFloat.t) (e : edge) : res bool :=
  let '(u, v, weight) := e in
  du ← getitem distances u;
  dv ← getitem distances v;
  Ok (LogFloat.ltb (LogFloat.add du weight) dv).

(** ** The arguments of [math.log] *)

(** Whether [math.log] accepts the arguments that the loop building the
    graph hands to it at a symbol.  A symbol that the loop passes over
    hands it none.  At any other symbol the arguments are
    [rate * (1 - fee_rate)] and [(1 / rate) * (1 - fee_rate)], and
    [math.log] raises [ValueError] at an argument [x] with [x <= 0]. *)
Definition logs_defined (fee_rate : Q) (item : string * Quote) : bool :=
  let '(symbol, data) := item in
  if (String.length symbol <? 6)%nat then true
  else
    match price data with
    | None => true
    | Some rate =>
        if Qle_bool rate 0 then true
        else
          negb (Qle_bool (rate * (1 - fee_rate)) 0)
          && negb (Qle_bool (1 / rate * (1 - fee_rate)) 0)
    end.

(** ** The two profit computations on binary64 floats *)

Module Binary64.

Import Floats.
#[local] Open Scope float_scope.

(** A Python float is an IEEE 754 binary64 number, the [float] of the
    kernel: [*], [-], [<] and [!=] are its operations, and [/] is its
    division behind the test for a zero divisor.  [x ** 3] is
    [pow(x, 3.0)] of the C library, which IEEE 754 does not fix: it is
    the argument [pow] of the triangular check. *)

Record Quote : Set := { price : option float; last_update : Z }.

Definition price_table : Set := list (string * Quote).

Fixpoint tbl_get (latest_prices : price_table) (symbol : string) : option Quote :=
  match latest_prices with
  | [] => None
  | (k, data) :: rest => if String.eqb k symbol then Some data else tbl_get rest symbol
  end.

Definition tbl_mem (latest_prices : price_table) (symbol : string) : bool :=
  match tbl_get latest_prices symbol with
  | Some _ => true
  | None => false
  end.

Definition price_item (data : Quote) : res float :=
  match price data with
  | Some p => Ok p
  | None => Raise TypeError
  end.

Definition truediv (a b : float) : res float :=
  if b =? 0 then Raise ZeroDivisionError else Ok (a / b).

Record TriangularCall : Type := {
  tc_triplet : string * string * string;
  tc_trade_amount : float;
  tc_rate_AB : float;
  tc_rate_BC : float;
  tc_rate_CA : float;
  tc_net_profit : float;
  tc_timestamp : Z
}.

Definition get_rate (latest_prices : price_table) (base quote pair_symbol : string)
  : res (option float) :=
  match tbl_get latest_prices pair_symbol with
  | None => Ok None
  | Some data =>
      match price data with
      | None => Ok None
      | Some price =>
          if String.eqb pair_symbol (base +:+ quote) then Ok (Some price)
          else if String.eqb pair_symbol (quote +:+ base) then
            if negb (price =? 0) then r ← truediv 1 price; Ok (Some r) else Ok None
          else Ok None
      end
  end.

Definition pair_for (latest_prices : price_table) (X Y : string) : string :=
  if tbl_mem latest_prices (X +:+ Y) then X +:+ Y else Y +:+ X.

Definition resolve (latest_prices : price_table) (base quote : string)
  : res (option float) :=
  get_rate latest_prices base quote (pair_for latest_prices base quote).

Section Pow.

Variable pow : float → float → float.

Definition check_triplet (latest_prices : price_table) (fee_rate : float) (now : Z)
    (triplet : string * string * string) : res (option TriangularCall) :=
  let '(A, B, C) := triplet in
  let pair_AB := pair_for latest_prices A B in
  let pair_BC := pair_for latest_prices B C in
  let pair_CA := pair_for latest_prices C A in
  if negb (tbl_mem latest_prices pair_AB) || negb (tbl_mem latest_prices pair_BC)
     || negb (tbl_mem latest_prices pair_CA)
  then Ok None
  else
    rate_AB ← get_rate latest_prices A B pair_AB;
    rate_BC ← get_rate latest_prices B C pair_BC;
    rate_CA ← get_rate latest_prices C A pair_CA;
    match rate_AB, rate_BC, rate_CA with
    | Some rate_AB, Some rate_BC, Some rate_CA =>
        let raw_product := rate_AB * rate_BC * rate_CA in
        let fee_adjustment := pow (1 - fee_rate) 3 in
        let effective_product := raw_product * fee_adjustment in
        if 1 <? effective_product then
          let net_profit := effective_product - 1 in
          Ok (Some {|
            tc_triplet := triplet;
            tc_trade_amount := 100;
            tc_rate_AB := rate_AB;
            tc_rate_BC := rate_BC;
            tc_rate_CA := rate_CA;
            tc_net_profit := net_profit;
            tc_timestamp := now
          |})
        else Ok None
    | _, _, _ => Ok None
    end.

End Pow.

Definition leg_rate (latest_prices : price_table) (A B : string) : res float :=
  let direct_symbol := A +:+ B in
  let inverse_symbol := B +:+ A in
  match tbl_get latest_prices direct_symbol with
  | Some data => price_item data
  | None =>
      match tbl_get latest_prices inverse_symbol with
      | Some data =>
          inv_rate ← price_item data;
          if negb (inv_rate =? 0) then truediv 1 inv_rate else Ok 0
      | None => Ok 1
      end
  end.

Definition calculate_cycle_profit (latest_prices : price_table) (fee_rate : float)
    (cycle : list string) : res float :=
  for_each
    (fun amount i =>
       A ← list_getitem cycle i;
       B ← list_getitem cycle ((i + 1) mod length cycle)%nat;
       rate ← leg_rate latest_prices A B;
       Ok (amount * rate * (1 - fee_rate)))
    1 (seq 0 (length cycle)).

(** The double that the literal [0.001] denotes. *)
Definition default_fee_rate : float := 0x1.0624dd2f1a9fcp-10.

(** A table whose first two rates are [2 ** 512], about 1.34e154, and
    whose third rate is [2 ** -997], about 7.47e-301. *)
Definition table_overflow : price_table :=
  [ ("BTCETH"%string, {| price := Some 0x1p+512; last_update := 0 |});
    ("ETHXRP"%string, {| price := Some 0x1p+512; last_update := 0 |});
    ("XRPBTC"%string, {| price := Some 0x1p-997; last_update := 0 |}) ].

End Binary64.

(** ** Sample data for the order of the start vertices *)

(** Two quotes between BTC and ETH, one in each orientation, and a
    quote between XRP and LTC. *)
Definition table_islands : price_table :=
  [ ("BTCETH"%string, {| price := Some 2; last_update := 0 |});
    ("ETHBTC"%string, {| price := Some 1; last_update := 0 |});
    ("XRPLTC"%string, {| price := Some 1; last_update := 0 |}) ].

(** Two orders of the currencies of that table. *)
Definition iter_xrp_first (currencies : gset string) : list string :=
  ["XRP"; "BTC"; "ETH"; "LTC"]%string.
Definition iter_ltc_first (currencies : gset string) : list string :=
  ["LTC"; "XRP"; "BTC"; "ETH"]%string.

(** The table with one quote, and the fee rate at which nothing is left
    of an amount. *)
Definition table_one_quote : price_table :=
  [ ("BTCETH"%string, {| price := Some 2; last_update := 0 |}) ].

(** * Properties *)

(** ** Comparisons, division, loops *)

Lemma Qltb_lt a b : Qltb a b = true ↔ a < b.
Proof.
  unfold Qltb. rewrite negb_true_iff, <- not_true_iff_false, Qle_bool_iff.
  split; [apply Qnot_le_lt | apply Qlt_not_le].
Qed.

Lemma Qltb_ge a b : Qltb a b = false ↔ b <= a.
Proof. unfold Qltb. rewrite negb_false_iff. apply Qle_bool_iff. Qed.

Lemma Qneqb_true a b : Qneqb a b = true ↔ ¬ a == b.
Proof.
  unfold Qneqb. rewrite negb_true_iff, <- not_true_iff_false, Qeq_bool_iff. tauto.
Qed.

Lemma Qneqb_false a b : Qneqb a b = false ↔ a == b.
Proof. unfold Qneqb. rewrite negb_false_iff. apply Qeq_bool_iff. Qed.

Lemma truediv_nonzero a b : ¬ b == 0 → truediv a b = Ok (a / b).
Proof.
  intros Hb. unfold truediv.
  destruct (Qeq_bool b 0) eqn:E; [|done].
  apply Qeq_bool_iff in E. contradiction.
Qed.

Lemma bind_Ok {A B} (f : A → res B) (a : A) : (Ok a ≫= f) = f a.
Proof. reflexivity. Qed.

Lemma bind_Ok_inv {A B} (f : A → res B) (m : res A) (b : B) :
  (m ≫= f) = Ok b → ∃ a, m = Ok a ∧ f a = Ok b.
Proof. destruct m as [a|e]; [eauto | discriminate]. Qed.


(** ** [LogFloat] against the real numbers *)

Lemma Q2R_pos q : 0 < q → (0 < Q2R q)%R.
Proof. intros H. apply Qlt_Rlt in H. by rewrite RMicromega.Q2R_0 in H. Qed.

(** [-math.log(x)] succeeds exactly on the positive [x], and denotes
    the real number [- ln x]. *)
Lemma neg_log_to_R x :
  0 < x →
  ∃ w, LogFloat.neg_log x = Ok w ∧ LogFloat.to_R w = Some (- ln (Q2R x))%R.
Proof.
  intros Hx. exists (LogFloat.NegLog x). unfold LogFloat.neg_log, LogFloat.to_R. simpl.
  destruct (Qle_bool x 0) eqn:E.
  - apply Qle_bool_iff in E. exfalso. by apply (Qlt_not_le _ _ Hx).
  - split; [done|]. apply Qltb_lt in Hx. by rewrite Hx.
Qed.

Lemma neg_log_domain x : x <= 0 → LogFloat.neg_log x = Raise ValueError.
Proof. intros Hx. unfold LogFloat.neg_log. apply Qle_bool_iff in Hx. by rewrite Hx. Qed.

Lemma inf_to_R : LogFloat.to_R LogFloat.inf = None.
Proof. reflexivity. Qed.

Lemma zero_to_R : LogFloat.to_R LogFloat.zero = Some 0%R.
Proof.
  unfold LogFloat.to_R. simpl. f_equal.
  replace (Q2R 1) with 1%R by (unfold Q2R; simpl; rlra).
  rewrite ln_1. rlra.
Qed.

(** Adding two such floats adds the reals they denote; [inf] absorbs. *)
Lemma add_to_R a b :
  LogFloat.wf a → LogFloat.wf b →
  LogFloat.to_R (LogFloat.add a b) = LogFloat.ext_add (LogFloat.to_R a) (LogFloat.to_R b).
Proof.
  destruct a as [x], b as [y]. unfold LogFloat.wf, LogFloat.to_R, LogFloat.add. simpl.
  intros Hx Hy.
  destruct (Qltb 0 x) eqn:Ex, (Qltb 0 y) eqn:Ey; simpl.
  - apply Qltb_lt in Ex, Ey.
    assert (0 < x * y) as Hxy by qnra.
    apply Qltb_lt in Hxy. rewrite Hxy. f_equal.
    rewrite Q2R_mult, ln_mult by (by apply Q2R_pos). rlra.
  - apply Qltb_lt in Ex. apply Qltb_ge in Ey.
    assert (x * y <= 0) as Hxy by qnra.
    apply Qltb_ge in Hxy. by rewrite Hxy.
  - apply Qltb_ge in Ex. apply Qltb_lt in Ey.
    assert (x * y <= 0) as Hxy by qnra.
    apply Qltb_ge in Hxy. by rewrite Hxy.
  - apply Qltb_ge in Ex, Ey.
    assert (x * y <= 0) as Hxy by qnra.
    apply Qltb_ge in Hxy. by rewrite Hxy.
Qed.

Lemma add_wf a b : LogFloat.wf a → LogFloat.wf b → LogFloat.wf (LogFloat.add a b).
Proof. destruct a, b. unfold LogFloat.wf. simpl. qnra. Qed.

(** The comparison is the comparison of the reals denoted. *)
Lemma ltb_to_R a b :
  LogFloat.wf a → LogFloat.wf b →
  LogFloat.ltb a b = true ↔ LogFloat.ext_lt (LogFloat.to_R a) (LogFloat.to_R b).
Proof.
  destruct a as [x], b as [y]. unfold LogFloat.wf, LogFloat.to_R, LogFloat.ltb. simpl.
  intros Hx Hy. rewrite Qltb_lt.
  destruct (Qltb 0 x) eqn:Ex, (Qltb 0 y) eqn:Ey; simpl.
  - apply Qltb_lt in Ex, Ey.
    pose proof (Q2R_pos _ Ex) as Rx. pose proof (Q2R_pos _ Ey) as Ry.
    split.
    + intros H. apply Qlt_Rlt in H.
      pose proof (ln_increasing _ _ Ry H). rlra.
    + intros H. apply Rlt_Qlt. apply ln_lt_inv; [done | done | rlra].
  - apply Qltb_lt in Ex. apply Qltb_ge in Ey. split; [done|]. intros _. qlra.
  - apply Qltb_ge in Ex. apply Qltb_lt in Ey. split; [|done]. intros H. qlra.
  - apply Qltb_ge in Ex, Ey. split; [|done]. intros H. qlra.
Qed.

(** ** The rate resolver *)

Lemma tbl_mem_true lp symbol : tbl_mem lp symbol = true ↔ is_Some (tbl_get lp symbol).
Proof.
  unfold tbl_mem. destruct (tbl_get lp symbol) as [data|]; split; intros H.
  - by exists data.
  - done.
  - done.
  - by destruct H.
Qed.

Lemma tbl_mem_false lp symbol : tbl_mem lp symbol = false ↔ tbl_get lp symbol = None.
Proof. unfold tbl_mem. by destruct (tbl_get lp symbol). Qed.

Lemma pair_for_direct lp X Y :
  is_Some (tbl_get lp (X +:+ Y)) → pair_for lp X Y = X +:+ Y.
Proof. intros H. unfold pair_for. apply tbl_mem_true in H. by rewrite H. Qed.

Lemma pair_for_inverse lp X Y :
  tbl_get lp (X +:+ Y) = None → pair_for lp X Y = Y +:+ X.
Proof. intros H. unfold pair_for. apply tbl_mem_false in H. by rewrite H. Qed.

(** [get_rate] never raises: the only division is guarded. *)
Lemma get_rate_no_raise lp base quote pair_symbol :
  ∃ r, get_rate lp base quote pair_symbol = Ok r.
Proof.
  unfold get_rate.
  destruct (tbl_get lp pair_symbol) as [data|]; [|eauto].
  destruct (price data) as [p|]; [|eauto].
  destruct (String.eqb pair_symbol (base +:+ quote)); [eauto|].
  destruct (String.eqb pair_symbol (quote +:+ base)); [|eauto].
  destruct (Qneqb p 0) eqn:E; [|eauto].
  apply Qneqb_true in E. rewrite (truediv_nonzero _ _ E). simpl. eauto.
Qed.

Lemma resolve_direct lp base quote data p :
  tbl_get lp (base +:+ quote) = Some data → price data = Some p →
  resolve lp base quote = Ok (Some p).
Proof.
  intros Hget Hp. unfold resolve.
  rewrite pair_for_direct by (by rewrite Hget).
  unfold get_rate. by rewrite Hget, Hp, String.eqb_refl.
Qed.

Lemma resolve_inverse lp base quote data p :
  tbl_get lp (base +:+ quote) = None →
  tbl_get lp (quote +:+ base) = Some data → price data = Some p →
  resolve lp base quote = if Qeq_bool p 0 then Ok None else Ok (Some (1 / p)).
Proof.
  intros Hdir Hinv Hp. unfold resolve.
  rewrite pair_for_inverse by done.
  unfold get_rate. rewrite Hinv, Hp.
  destruct (String.eqb (quote +:+ base) (base +:+ quote)) eqn:E.
  { apply String.eqb_eq in E. rewrite E in Hinv. congruence. }
  rewrite String.eqb_refl. unfold Qneqb, truediv.
  by destruct (Qeq_bool p 0).
Qed.

Lemma resolve_missing lp base quote :
  tbl_get lp (base +:+ quote) = None → tbl_get lp (quote +:+ base) = None →
  resolve lp base quote = Ok None.
Proof.
  intros Hdir Hinv. unfold resolve.
  rewrite pair_for_inverse by done.
  unfold get_rate. by rewrite Hinv.
Qed.

Lemma get_rate_no_price lp base quote pair_symbol data :
  tbl_get lp pair_symbol = Some data → price data = None →
  get_rate lp base quote pair_symbol = Ok None.
Proof. intros Hget Hp. unfold get_rate. by rewrite Hget, Hp. Qed.

(** C3.  Rate resolution from [base] to [quote]: the stored price when
    the direct symbol is present; the reciprocal when only the inverse
    symbol is present and its price is not zero; absent, and no
    exception, when neither symbol is present, when the quote found has
    no price, and when only the inverse symbol is present with price
    zero.  [get_rate] raises on no input at all. *)
Theorem C3_rate_resolution (lp : price_table) (base quote : string) :
  (∀ data p,
     tbl_get lp (base +:+ quote) = Some data → price data = Some p →
     resolve lp base quote = Ok (Some p))
  ∧ (∀ data p,
     tbl_get lp (base +:+ quote) = None →
     tbl_get lp (quote +:+ base) = Some data → price data = Some p →
     ¬ p == 0 →
     resolve lp base quote = Ok (Some (1 / p)))
  ∧ (tbl_get lp (base +:+ quote) = None → tbl_get lp (quote +:+ base) = None →
     resolve lp base quote = Ok None)
  ∧ (∀ data,
     tbl_get lp (pair_for lp base quote) = Some data → price data = None →
     resolve lp base quote = Ok None)
  ∧ (∀ data p,
     tbl_get lp (base +:+ quote) = None →
     tbl_get lp (quote +:+ base) = Some data → price data = Some p →
     p == 0 →
     resolve lp base quote = Ok None)
  ∧ (∀ pair_symbol, ∃ r, get_rate lp base quote pair_symbol = Ok r).
Proof.
  repeat split.
  - intros data p. apply resolve_direct.
  - intros data p Hdir Hinv Hp Hnz.
    rewrite (resolve_inverse _ _ _ _ _ Hdir Hinv Hp).
    destruct (Qeq_bool p 0) eqn:E; [|done].
    apply Qeq_bool_iff in E. contradiction.
  - apply resolve_missing.
  - intros data. apply get_rate_no_price.
  - intros data p Hdir Hinv Hp Hz.
    rewrite (resolve_inverse _ _ _ _ _ Hdir Hinv Hp).
    apply Qeq_bool_iff in Hz. by rewrite Hz.
  - apply get_rate_no_raise.
Qed.

Lemma C3_rate_resolution_witness :
  resolve table_c3 "BTC" "USDT" = Ok (Some 20000)
  ∧ resolve table_c3 "BTC" "ETH" = Ok (Some (1 / (1 # 20)))
  ∧ resolve table_c3 "BTC" "ADA" = Ok None
  ∧ resolve table_c3 "BNB" "BTC" = Ok None
  ∧ resolve table_c3 "BTC" "XRP" = Ok None.
Proof.
  split; [|split; [|split; [|split]]].
  - eapply (proj1 (C3_rate_resolution table_c3 "BTC" "USDT")); reflexivity.
  - eapply (proj1 (proj2 (C3_rate_resolution table_c3 "BTC" "ETH")));
      [reflexivity | reflexivity | reflexivity | discriminate].
  - apply (proj1 (proj2 (proj2 (C3_rate_resolution table_c3 "BTC" "ADA"))));
      reflexivity.
  - eapply (proj1 (proj2 (proj2 (proj2 (C3_rate_resolution table_c3 "BNB" "BTC")))));
      reflexivity.
  - eapply (proj1 (proj2 (proj2 (proj2 (proj2
      (C3_rate_resolution table_c3 "BTC" "XRP"))))));
      reflexivity.
Defined.

(** ** The triangular check *)

(** A rate that resolves comes from a symbol of the table. *)
Lemma resolve_Some_mem lp X Y r :
  resolve lp X Y = Ok (Some r) → tbl_mem lp (pair_for lp X Y) = true.
Proof.
  unfold resolve, get_rate, tbl_mem.
  by destruct (tbl_get lp (pair_for lp X Y)).
Qed.

(** The outcome for a triplet whose three rates resolve. *)
Lemma check_triplet_resolved lp fee now A B C rAB rBC rCA :
  resolve lp A B = Ok (Some rAB) →
  resolve lp B C = Ok (Some rBC) →
  resolve lp C A = Ok (Some rCA) →
  check_triplet lp fee now (A, B, C) =
    if Qltb 1 (rAB * rBC * rCA * (1 - fee) ^ 3) then
      Ok (Some {|
        tc_triplet := (A, B, C);
        tc_trade_amount := 100;
        tc_rate_AB := rAB;
        tc_rate_BC := rBC;
        tc_rate_CA := rCA;
        tc_net_profit := rAB * rBC * rCA * (1 - fee) ^ 3 - 1;
        tc_timestamp := now
      |})
    else Ok None.
Proof.
  intros HAB HBC HCA. unfold check_triplet.
  rewrite (resolve_Some_mem _ _ _ _ HAB), (resolve_Some_mem _ _ _ _ HBC),
    (resolve_Some_mem _ _ _ _ HCA). simpl.
  unfold resolve in HAB, HBC, HCA. by rewrite HAB, HBC, HCA.
Qed.

(** A triplet with a rate that does not resolve is skipped. *)
Lemma check_triplet_no_raise lp fee now triplet :
  ∃ r, check_triplet lp fee now triplet = Ok r.
Proof.
  destruct triplet as [[A B] C]. unfold check_triplet.
  destruct (negb _ || negb _ || negb _); [eauto|].
  destruct (get_rate_no_raise lp A B (pair_for lp A B)) as [rAB ->].
  destruct (get_rate_no_raise lp B C (pair_for lp B C)) as [rBC ->].
  destruct (get_rate_no_raise lp C A (pair_for lp C A)) as [rCA ->].
  simpl. destruct rAB, rBC, rCA; eauto.
  destruct (Qltb 1 _); eauto.
Qed.

Lemma run_triangular_calls lp fee now triplets :
  run_triangular_arbitrage_check lp fee now triplets
  = Ok (flat_map (calls_of lp fee now) triplets).
Proof.
  unfold run_triangular_arbitrage_check.
  enough (∀ acc,
    for_each
      (fun calls triplet =>
         call ← check_triplet lp fee now triplet;
         match call with
         | Some call => Ok (calls ++ [call])
         | None => Ok calls
         end) acc triplets
    = Ok (acc ++ flat_map (calls_of lp fee now) triplets)) as H by apply (H []).
  induction triplets as [|t ts IH]; intros acc; simpl.
  - by rewrite app_nil_r.
  - unfold calls_of at 1.
    destruct (check_triplet_no_raise lp fee now t) as [[call|] ->]; simpl.
    + rewrite IH. by rewrite <- app_assoc.
    + apply IH.
Qed.

Lemma calls_of_triplet lp fee now triplet call :
  call ∈ calls_of lp fee now triplet → tc_triplet call = triplet.
Proof.
  destruct triplet as [[A B] C]. unfold calls_of, check_triplet.
  destruct (negb _ || negb _ || negb _); [by intros ?%elem_of_nil|].
  destruct (get_rate_no_raise lp A B (pair_for lp A B)) as [rAB ->].
  destruct (get_rate_no_raise lp B C (pair_for lp B C)) as [rBC ->].
  destruct (get_rate_no_raise lp C A (pair_for lp C A)) as [rCA ->].
  simpl. destruct rAB, rBC, rCA; try by intros ?%elem_of_nil.
  destruct (Qltb 1 _); [|by intros ?%elem_of_nil].
  by intros ->%list_elem_of_singleton.
Qed.

(** C2.  For a triplet whose three rates resolve, one scan calls the
    paper trader for it exactly when the product of the rates times
    [(1 - fee)^3] is strictly above 1, and the net profit handed over is
    that product minus 1. *)
Theorem C2_triangular_emits_iff (lp : price_table) (fee : Q) (now : Z)
    (triplets : list (string * string * string)) (A B C : string) (rAB rBC rCA : Q) :
  resolve lp A B = Ok (Some rAB) →
  resolve lp B C = Ok (Some rBC) →
  resolve lp C A = Ok (Some rCA) →
  (A, B, C) ∈ triplets →
  ∃ calls,
    run_triangular_arbitrage_check lp fee now triplets = Ok calls
    ∧ ((∃ call, call ∈ calls ∧ tc_triplet call = (A, B, C))
       ↔ 1 < rAB * rBC * rCA * (1 - fee) ^ 3)
    ∧ (∀ call, call ∈ calls → tc_triplet call = (A, B, C) →
       tc_net_profit call = rAB * rBC * rCA * (1 - fee) ^ 3 - 1
       ∧ tc_rate_AB call = rAB ∧ tc_rate_BC call = rBC ∧ tc_rate_CA call = rCA).
Proof.
  intros HAB HBC HCA Hin.
  exists (flat_map (calls_of lp fee now) triplets).
  split; [apply run_triangular_calls|].
  pose proof (check_triplet_resolved lp fee now A B C _ _ _ HAB HBC HCA) as Hchk.
  split; [split|].
  - intros (call & Hcall & Htr).
    apply list_elem_of_In, in_flat_map in Hcall as (t & _ & Hcall).
    apply list_elem_of_In in Hcall.
    pose proof (calls_of_triplet _ _ _ _ _ Hcall) as Ht.
    rewrite Htr in Ht. subst t.
    unfold calls_of in Hcall. rewrite Hchk in Hcall.
    destruct (Qltb 1 _) eqn:E; [by apply Qltb_lt in E|].
    by apply elem_of_nil in Hcall.
  - intros Hgt. apply Qltb_lt in Hgt. rewrite Hgt in Hchk.
    eexists. split.
    + apply list_elem_of_In, in_flat_map. exists (A, B, C).
      split; [by apply list_elem_of_In|].
      unfold calls_of. rewrite Hchk. by left.
    + reflexivity.
  - intros call Hcall Htr.
    apply list_elem_of_In, in_flat_map in Hcall as (t & _ & Hcall).
    apply list_elem_of_In in Hcall.
    pose proof (calls_of_triplet _ _ _ _ _ Hcall) as Ht.
    rewrite Htr in Ht. subst t.
    unfold calls_of in Hcall. rewrite Hchk in Hcall.
    destruct (Qltb 1 _); [|by apply elem_of_nil in Hcall].
    by apply list_elem_of_singleton in Hcall as ->.
Qed.

Lemma C2_triangular_emits_iff_witness :
  ∃ calls,
    run_triangular_arbitrage_check table_triangular default_fee_rate 0 default_triplets
    = Ok calls
    ∧ ((∃ call, call ∈ calls ∧ tc_triplet call = ("USDT", "BTC", "ETH")%string)
       ↔ 1 < 20000 * (5 # 100) * 21500 * (1 - default_fee_rate) ^ 3)
    ∧ (∀ call, call ∈ calls → tc_triplet call = ("USDT", "BTC", "ETH")%string →
       tc_net_profit call = 20000 * (5 # 100) * 21500 * (1 - default_fee_rate) ^ 3 - 1
       ∧ tc_rate_AB call = 20000 ∧ tc_rate_BC call = 5 # 100
       ∧ tc_rate_CA call = 21500).
Proof.
  apply (C2_triangular_emits_iff table_triangular default_fee_rate 0 default_triplets
           "USDT" "BTC" "ETH" 20000 (5 # 100) 21500);
    [reflexivity | reflexivity | reflexivity | apply list_elem_of_here].
Defined.

(** ** The replay of a cycle *)

(** A loop over the indices of a list is a loop over the list. *)
Lemma for_each_indices {St A} (f : St → nat → res St) (g : St → A → res St)
    (l : list A) (k : nat) (s : St) :
  (∀ i x s, l !! i = Some x → f s (k + i)%nat = g s x) →
  for_each f s (seq k (length l)) = for_each g s l.
Proof.
  revert k s. induction l as [|x l IH]; intros k s Hfg; simpl; [done|].
  rewrite <- (Hfg 0%nat x s eq_refl), Nat.add_0_r.
  destruct (f s k) as [s'|e]; simpl; [|done].
  apply IH. intros i y s'' Hi.
  rewrite <- (Hfg (S i) y s'' Hi). f_equal. lia.
Qed.

Lemma legs_length cycle : length (legs cycle) = length cycle.
Proof. unfold legs. rewrite length_zip, length_rotate. lia. Qed.

Lemma legs_lookup cycle i X Y :
  legs cycle !! i = Some (X, Y) →
  cycle !! i = Some X ∧ cycle !! ((i + 1) mod length cycle)%nat = Some Y.
Proof.
  unfold legs. intros [HX [HY Hlt]%lookup_rotate_r_Some]%lookup_zip_Some.
  split; [done|].
  unfold rotate_nat_add in HY.
  replace (Z.of_nat 1 + Z.of_nat i)%Z with (Z.of_nat (i + 1)) in HY by lia.
  by rewrite <- Nat2Z.inj_mod, Nat2Z.id in HY.
Qed.

(** The replay starts from 1 and takes the legs in order, the last
    element of the cycle paired with the first. *)
Lemma calculate_cycle_profit_legs lp fee cycle :
  calculate_cycle_profit lp fee cycle
  = for_each
      (fun amount '(X, Y) => rate ← leg_rate lp X Y; Ok (amount * rate * (1 - fee)))
      1 (legs cycle).
Proof.
  unfold calculate_cycle_profit.
  etrans; [|eapply (for_each_indices _ _ (legs cycle) 0%nat)].
  - by rewrite legs_length.
  - intros i [X Y] amount Hi.
    apply legs_lookup in Hi as [HX HY].
    rewrite Nat.add_0_l. unfold list_getitem. by rewrite HX, HY.
Qed.

(** A rate that resolves is the rate the replay uses. *)
Lemma leg_rate_resolved lp X Y r :
  resolve lp X Y = Ok (Some r) → leg_rate lp X Y = Ok r.
Proof.
  intros Hres. unfold leg_rate, price_item.
  destruct (tbl_get lp (X +:+ Y)) as [data|] eqn:Hdir.
  - destruct (price data) as [p|] eqn:Hp.
    + rewrite (resolve_direct _ _ _ _ _ Hdir Hp) in Hres. congruence.
    + unfold resolve in Hres. rewrite pair_for_direct in Hres by (by rewrite Hdir).
      rewrite (get_rate_no_price _ _ _ _ _ Hdir Hp) in Hres. congruence.
  - destruct (tbl_get lp (Y +:+ X)) as [data|] eqn:Hinv.
    + destruct (price data) as [p|] eqn:Hp.
      * rewrite (resolve_inverse _ _ _ _ _ Hdir Hinv Hp) in Hres. simpl.
        unfold Qneqb, truediv.
        destruct (Qeq_bool p 0); simpl; congruence.
      * unfold resolve in Hres. rewrite pair_for_inverse in Hres by done.
        rewrite (get_rate_no_price _ _ _ _ _ Hinv Hp) in Hres. congruence.
    + rewrite (resolve_missing _ _ _ Hdir Hinv) in Hres. congruence.
Qed.

Lemma leg_rate_missing lp X Y :
  tbl_get lp (X +:+ Y) = None → tbl_get lp (Y +:+ X) = None → leg_rate lp X Y = Ok 1.
Proof. intros Hdir Hinv. unfold leg_rate. by rewrite Hdir, Hinv. Qed.

Lemma leg_rate_zero_inverse lp X Y data p :
  tbl_get lp (X +:+ Y) = None → tbl_get lp (Y +:+ X) = Some data →
  price data = Some p → p == 0 →
  leg_rate lp X Y = Ok 0.
Proof.
  intros Hdir Hinv Hp Hz. unfold leg_rate, price_item. rewrite Hdir, Hinv, Hp. simpl.
  apply Qneqb_false in Hz. by rewrite Hz.
Qed.



(** On a table that stores only ETHBTC, with price zero, no rate
    resolves from BTC to ETH, and the replay uses the rate 0 for that
    leg: the replayed amount of the cycle is 0, not the amount that a
    rate of 1 (or a multiplier of 1) for that leg would give. *)
Lemma C6_zero_inverse_counterexample :
  resolve table_zero_inverse "BTC" "ETH" = Ok None
  ∧ leg_rate table_zero_inverse "BTC" "ETH" = Ok 0
  ∧ ∃ profit,
      calculate_cycle_profit table_zero_inverse default_fee_rate
        ["BTC"; "ETH"; "XRP"]%string = Ok profit
      ∧ profit == 0
      ∧ ¬ profit
          == spec_cycle_profit table_zero_inverse default_fee_rate
               ["BTC"; "ETH"; "XRP"]%string
      ∧ ¬ profit == 1 * (2 * (1 - default_fee_rate)) * (3 * (1 - default_fee_rate)).
Proof.
  split; [reflexivity|]. split; [reflexivity|].
  eexists. split; [reflexivity|].
  split; [reflexivity|]. split; discriminate.
Qed.

Lemma for_each_pure {St A} (body : St → A → res St) (f : St → A → St)
    (l : list A) (s : St) :
  Forall (fun x => ∀ s, body s x = Ok (f s x)) l →
  for_each body s l = Ok (fold_left f l s).
Proof.
  intros H. revert s. induction H as [|x l Hx _ IH]; intros s; simpl; [done|].
  rewrite Hx. simpl. apply IH.
Qed.

(** Where every leg either resolves or has neither symbol in the table,
    the replay is the one the specification words. *)
Lemma calculate_cycle_profit_spec lp fee cycle :
  Forall
    (fun '(X, Y) =>
       (∃ r, resolve lp X Y = Ok (Some r))
       ∨ (tbl_get lp (X +:+ Y) = None ∧ tbl_get lp (Y +:+ X) = None))
    (legs cycle) →
  calculate_cycle_profit lp fee cycle = Ok (spec_cycle_profit lp fee cycle).
Proof.
  intros Hlegs. rewrite calculate_cycle_profit_legs. unfold spec_cycle_profit.
  apply (for_each_pure _
    (fun amount '(X, Y) => amount * spec_leg_rate lp X Y * (1 - fee))).
  eapply Forall_impl; [exact Hlegs|].
  intros [X Y] Hleg amount. unfold spec_leg_rate.
  destruct Hleg as [[r Hr]|[Hdir Hinv]].
  - by rewrite (leg_rate_resolved _ _ _ _ Hr), Hr.
  - by rewrite (leg_rate_missing _ _ _ Hdir Hinv), (resolve_missing _ _ _ Hdir Hinv).
Qed.

(** C6, amended.  The replay starts from 1 and, for each consecutive
    pair of the cycle, the last element paired with the first,
    multiplies the amount by [rate * (1 - fee)].  The rate is the
    resolved rate when one resolves and 1 when neither symbol is in the
    table, so that on cycles whose legs are all of these two kinds the
    replay is the one of the specification; when only the inverse symbol
    is in the table and its price is zero, the rate is 0. *)
Theorem C6_cycle_profit_replay (lp : price_table) (fee : Q) (cycle : list string) :
  calculate_cycle_profit lp fee cycle
  = for_each
      (fun amount '(X, Y) => rate ← leg_rate lp X Y; Ok (amount * rate * (1 - fee)))
      1 (legs cycle)
  ∧ (∀ X Y r, resolve lp X Y = Ok (Some r) → leg_rate lp X Y = Ok r)
  ∧ (∀ X Y,
     tbl_get lp (X +:+ Y) = None → tbl_get lp (Y +:+ X) = None →
     leg_rate lp X Y = Ok 1)
  ∧ (∀ X Y data p,
     tbl_get lp (X +:+ Y) = None → tbl_get lp (Y +:+ X) = Some data →
     price data = Some p → p == 0 →
     leg_rate lp X Y = Ok 0)
  ∧ (Forall
       (fun '(X, Y) =>
          (∃ r, resolve lp X Y = Ok (Some r))
          ∨ (tbl_get lp (X +:+ Y) = None ∧ tbl_get lp (Y +:+ X) = None))
       (legs cycle) →
     calculate_cycle_profit lp fee cycle = Ok (spec_cycle_profit lp fee cycle)).
Proof.
  split; [apply calculate_cycle_profit_legs|].
  split; [apply leg_rate_resolved|].
  split; [apply leg_rate_missing|].
  split; [apply leg_rate_zero_inverse|].
  apply calculate_cycle_profit_spec.
Qed.

Lemma C6_cycle_profit_replay_witness :
  leg_rate table_triangular "USDT" "BTC" = Ok 20000
  ∧ leg_rate table_triangular "BTC" "XRP" = Ok 1
  ∧ leg_rate table_zero_inverse "BTC" "ETH" = Ok 0
  ∧ calculate_cycle_profit table_triangular default_fee_rate
      ["USDT"; "BTC"; "ETH"]%string
    = Ok (spec_cycle_profit table_triangular default_fee_rate
            ["USDT"; "BTC"; "ETH"]%string).
Proof.
  split; [|split; [|split]].
  - apply (proj1 (proj2
      (C6_cycle_profit_replay table_triangular default_fee_rate []))).
    reflexivity.
  - apply (proj1 (proj2 (proj2
      (C6_cycle_profit_replay table_triangular default_fee_rate []))));
      reflexivity.
  - eapply (proj1 (proj2 (proj2 (proj2
      (C6_cycle_profit_replay table_zero_inverse default_fee_rate [])))));
      reflexivity.
  - apply (proj2 (proj2 (proj2 (proj2
      (C6_cycle_profit_replay table_triangular default_fee_rate
         ["USDT"; "BTC"; "ETH"]%string))))).
    apply List.Forall_cons; [left; eexists; reflexivity|].
    apply List.Forall_cons; [left; eexists; reflexivity|].
    apply List.Forall_cons; [left; eexists; reflexivity|].
    apply List.Forall_nil.
Defined.

(** ** The paper trader *)

(** Each call is all or nothing: it either returns the trader as it was,
    or updates one balance and appends one entry to the trade log, the
    entry recording the balances after the update. *)
Lemma execute_triangular_trade_atomic self triplet trade_amount rate_AB rate_BC rate_CA
    net_profit timestamp self' msg :
  PaperTrader.execute_triangular_trade self triplet trade_amount rate_AB rate_BC rate_CA
    net_profit timestamp = (self', msg) →
  self' = self
  ∨ ∃ details,
      msg = PaperTrader.Executed details
      ∧ PaperTrader.trade_log self' = PaperTrader.trade_log self ++ [details]
      ∧ PaperTrader.balances self' = PaperTrader.balances_after details.
Proof.
  destruct triplet as [[A B] C]. unfold PaperTrader.execute_triangular_trade.
  destruct (Qltb _ _); intros [= <- <-]; [by left|].
  right. by eexists.
Qed.

Lemma execute_cycle_trade_atomic self cycle trade_amount net_profit timestamp self' msg :
  PaperTrader.execute_cycle_trade self cycle trade_amount net_profit timestamp
  = Ok (self', msg) →
  self' = self
  ∨ ∃ details,
      msg = PaperTrader.Executed details
      ∧ PaperTrader.trade_log self' = PaperTrader.trade_log self ++ [details]
      ∧ PaperTrader.balances self' = PaperTrader.balances_after details.
Proof.
  unfold PaperTrader.execute_cycle_trade.
  destruct (list_getitem cycle 0) as [start_currency|]; simpl; [|discriminate].
  destruct (Qltb _ _); intros [= <- <-]; [by left|].
  right. by eexists.
Qed.

(** C9.  When the balance of the starting currency is below the trade
    amount, a triangular trade and a cycle trade are rejected for
    insufficient balance and the trader is returned as it was: no
    balance is modified and no entry is appended to the trade log.  A
    call is all or nothing: it returns the trader as it was, or it
    updates the balances and appends the entry that records them. *)
Theorem C9_insufficient_balance_unchanged (self : PaperTrader.t)
    (trade_amount net_profit : Q) (timestamp : Z) :
  (∀ A B C rate_AB rate_BC rate_CA,
     PaperTrader.balance_of self A < trade_amount →
     PaperTrader.execute_triangular_trade self (A, B, C) trade_amount
       rate_AB rate_BC rate_CA net_profit timestamp
     = (self, PaperTrader.InsufficientBalance "triangular" A))
  ∧ (∀ start_currency rest,
     PaperTrader.balance_of self start_currency < trade_amount →
     PaperTrader.execute_cycle_trade self (start_currency :: rest) trade_amount
       net_profit timestamp
     = Ok (self, PaperTrader.InsufficientBalance "cycle" start_currency))
  ∧ (∀ triplet rate_AB rate_BC rate_CA self' msg,
     PaperTrader.execute_triangular_trade self triplet trade_amount
       rate_AB rate_BC rate_CA net_profit timestamp = (self', msg) →
     self' = self
     ∨ ∃ details,
         msg = PaperTrader.Executed details
         ∧ PaperTrader.trade_log self' = PaperTrader.trade_log self ++ [details]
         ∧ PaperTrader.balances self' = PaperTrader.balances_after details)
  ∧ (∀ cycle self' msg,
     PaperTrader.execute_cycle_trade self cycle trade_amount net_profit timestamp
     = Ok (self', msg) →
     self' = self
     ∨ ∃ details,
         msg = PaperTrader.Executed details
         ∧ PaperTrader.trade_log self' = PaperTrader.trade_log self ++ [details]
         ∧ PaperTrader.balances self' = PaperTrader.balances_after details).
Proof.
  split; [|split; [|split]].
  - intros A B C rate_AB rate_BC rate_CA Hlt.
    unfold PaperTrader.execute_triangular_trade.
    apply Qltb_lt in Hlt. by rewrite Hlt.
  - intros start_currency rest Hlt.
    unfold PaperTrader.execute_cycle_trade. simpl.
    apply Qltb_lt in Hlt. by rewrite Hlt.
  - intros triplet rate_AB rate_BC rate_CA self' msg.
    apply execute_triangular_trade_atomic.
  - intros cycle self' msg. apply execute_cycle_trade_atomic.
Qed.

Lemma C9_insufficient_balance_unchanged_witness :
  PaperTrader.execute_triangular_trade trader_50 ("USDT", "BTC", "ETH")%string 100
    20000 (5 # 100) 21500 (1 # 100) 0
  = (trader_50, PaperTrader.InsufficientBalance "triangular" "USDT")
  ∧ PaperTrader.execute_cycle_trade trader_50 ["USDT"; "BTC"]%string 100 (1 # 100) 0
    = Ok (trader_50, PaperTrader.InsufficientBalance "cycle" "USDT").
Proof.
  split.
  - apply (proj1 (C9_insufficient_balance_unchanged trader_50 100 (1 # 100) 0)).
    reflexivity.
  - apply (proj1 (proj2 (C9_insufficient_balance_unchanged trader_50 100 (1 # 100) 0))).
    reflexivity.
Defined.

(** C10.  A triangular trade that executes changes the balance of the
    starting currency only: the balance of every other currency, the two
    intermediate currencies among them, is as before, and the starting
    currency receives the net result of the three conversions. *)
Theorem C10_triangular_trade_frame (self self' : PaperTrader.t) (msg : PaperTrader.message)
    (A B C : string) (trade_amount rate_AB rate_BC rate_CA net_profit : Q)
    (timestamp : Z) :
  ¬ PaperTrader.balance_of self A < trade_amount →
  PaperTrader.execute_triangular_trade self (A, B, C) trade_amount
    rate_AB rate_BC rate_CA net_profit timestamp = (self', msg) →
  (∀ currency, currency ≠ A →
     PaperTrader.balances self' !! currency = PaperTrader.balances self !! currency)
  ∧ (B ≠ A → PaperTrader.balance_of self' B = PaperTrader.balance_of self B)
  ∧ (C ≠ A → PaperTrader.balance_of self' C = PaperTrader.balance_of self C)
  ∧ PaperTrader.balances self' !! A
    = Some (PaperTrader.balance_of self A - trade_amount
            + trade_amount * rate_AB * (1 - (1 # 1000)) * rate_BC * (1 - (1 # 1000))
              * rate_CA * (1 - (1 # 1000)))
  ∧ length (PaperTrader.trade_log self') = S (length (PaperTrader.trade_log self)).
Proof.
  intros Hge. unfold PaperTrader.execute_triangular_trade.
  destruct (Qltb _ _) eqn:E; [by apply Qltb_lt in E|].
  intros [= <- <-]. simpl.
  assert (∀ currency, currency ≠ A →
    <[A := PaperTrader.balance_of self A - trade_amount
           + trade_amount * rate_AB * (1 - (1 # 1000)) * rate_BC * (1 - (1 # 1000))
             * rate_CA * (1 - (1 # 1000))]> (PaperTrader.balances self) !! currency
    = PaperTrader.balances self !! currency) as Hframe.
  { intros currency Hne. by apply lookup_insert_ne. }
  split; [exact Hframe|].
  split; [|split; [|split]].
  - intros Hne. unfold PaperTrader.balance_of. simpl. by rewrite Hframe.
  - intros Hne. unfold PaperTrader.balance_of. simpl. by rewrite Hframe.
  - apply lookup_insert_eq.
  - rewrite length_app. simpl. lia.
Qed.

Lemma C10_triangular_trade_frame_witness :
  let r :=
    PaperTrader.execute_triangular_trade trader_1000 ("USDT", "BTC", "ETH")%string 100
      20000 (5 # 100) 21500 (1 # 100) 0 in
  ¬ PaperTrader.balance_of trader_1000 "USDT" < 100
  ∧ PaperTrader.balances (fst r) !! "BTC"%string = Some 2
  ∧ PaperTrader.balance_of (fst r) "ETH" = 0.
Proof.
  intros r.
  assert (¬ PaperTrader.balance_of trader_1000 "USDT" < 100) as Hge
    by (vm_compute; discriminate).
  split; [exact Hge|].
  destruct (C10_triangular_trade_frame trader_1000 (fst r) (snd r) "USDT" "BTC" "ETH" 100
              20000 (5 # 100) 21500 (1 # 100) 0 Hge eq_refl)
    as (Hframe & _ & HC & _).
  split.
  - rewrite Hframe by discriminate. reflexivity.
  - rewrite HC by discriminate. reflexivity.
Defined.

(** ** Graph construction *)

Lemma graph_edges_append graph u v w :
  graph_edges (graph_append graph u (v, w)) ≡ₚ graph_edges graph ++ [(u, v, w)].
Proof.
  induction graph as [|[k es] graph IH]; simpl; [done|].
  destruct (String.eqb k u) eqn:E; simpl.
  - apply String.eqb_eq in E as ->.
    rewrite map_app. simpl. rewrite <- !app_assoc.
    apply Permutation_app_head, Permutation_app_comm.
  - unfold graph_edges in IH. rewrite IH. by rewrite app_assoc.
Qed.

(** A graph built by appending edges has exactly these edges. *)
Lemma graph_edges_fold edges graph :
  graph_edges
    (fold_left (fun graph '(u, v, w) => graph_append graph u (v, w)) edges graph)
  ≡ₚ graph_edges graph ++ edges.
Proof.
  revert graph. induction edges as [|[[u v] w] edges IH]; intros graph; simpl.
  - by rewrite app_nil_r.
  - rewrite IH, graph_edges_append, <- app_assoc. done.
Qed.

Lemma graph_edges_of_edges edges : graph_edges (graph_of_edges edges) ≡ₚ edges.
Proof. unfold graph_of_edges. by rewrite graph_edges_fold. Qed.

Lemma Qinv_pos p : 0 < p → 0 < 1 / p.
Proof.
  intros Hp. unfold Qdiv. rewrite Qmult_1_l. by apply Qinv_lt_0_compat.
Qed.

Lemma neg_log_pos x : 0 < x → LogFloat.neg_log x = Ok (LogFloat.NegLog x).
Proof.
  intros Hx. unfold LogFloat.neg_log.
  destruct (Qle_bool x 0) eqn:E; [|done].
  apply Qle_bool_iff in E. exfalso. by apply (Qlt_not_le _ _ Hx).
Qed.

(** One step of the loop that builds the graph. *)
Lemma add_symbol_spec fee graph currencies item :
  fee < 1 →
  add_symbol fee (graph, currencies) item
  = Ok (fold_left (fun graph '(u, v, w) => graph_append graph u (v, w))
          (symbol_edges fee item) graph,
        currencies ∪ symbol_currencies item).
Proof.
  intros Hfee. destruct item as [symbol data].
  unfold add_symbol, symbol_edges, symbol_currencies. cbn [fst snd].
  destruct (Nat.ltb_spec (String.length symbol) 6) as [Hlen|Hlen].
  - rewrite (proj2 (Nat.leb_gt 6 (String.length symbol)) Hlen). simpl.
    by rewrite union_empty_r_L.
  - rewrite (proj2 (Nat.leb_le 6 (String.length symbol)) Hlen).
    destruct (split_symbol symbol) as [base quote] eqn:Hsplit. simpl.
    rewrite <- (assoc_L (∪) currencies).
    destruct (price data) as [rate|]; [|done].
    unfold Qltb. destruct (Qle_bool rate 0) eqn:E; simpl; [done|].
    assert (0 < rate) as Hrate.
    { apply Qnot_le_lt. intros H%Qle_bool_iff. congruence. }
    rewrite neg_log_pos by qnra. simpl.
    assert (Qneqb rate 0 = true) as ->.
    { apply Qneqb_true. intros H. rewrite H in Hrate. by apply Qlt_irrefl in Hrate. }
    rewrite truediv_nonzero.
    2:{ intros H. rewrite H in Hrate. by apply Qlt_irrefl in Hrate. }
    simpl. pose proof (Qinv_pos _ Hrate).
    rewrite neg_log_pos by qnra. done.
Qed.

Lemma table_currencies_cons item lp :
  table_currencies (item :: lp) = symbol_currencies item ∪ table_currencies lp.
Proof. reflexivity. Qed.

Lemma for_each_add_symbol fee lp graph currencies :
  fee < 1 →
  for_each (add_symbol fee) (graph, currencies) lp
  = Ok (fold_left (fun graph '(u, v, w) => graph_append graph u (v, w))
          (flat_map (symbol_edges fee) lp) graph,
        currencies ∪ table_currencies lp).
Proof.
  intros Hfee. revert graph currencies.
  induction lp as [|item lp IH]; intros graph currencies; cbn [for_each flat_map].
  - unfold table_currencies. simpl. by rewrite union_empty_r_L.
  - rewrite add_symbol_spec by done. rewrite bind_Ok, IH.
    by rewrite fold_left_app, table_currencies_cons, (assoc_L (∪)).
Qed.

(** The graph and the set of currencies that the detection call builds. *)
Lemma build_graph_spec lp fee :
  fee < 1 →
  build_graph lp fee
  = Ok (graph_of_edges (flat_map (symbol_edges fee) lp), table_currencies lp).
Proof.
  intros Hfee. unfold build_graph. rewrite for_each_add_symbol by done.
  by rewrite union_empty_l_L.
Qed.

Lemma symbol_edges_inv fee symbol data u v w :
  (u, v, w) ∈ symbol_edges fee (symbol, data) →
  ∃ p,
    price data = Some p ∧ 0 < p ∧ (6 ≤ String.length symbol)%nat
    ∧ ((split_symbol symbol = (u, v) ∧ w = LogFloat.NegLog (p * (1 - fee)))
       ∨ (split_symbol symbol = (v, u) ∧ w = LogFloat.NegLog (1 / p * (1 - fee)))).
Proof.
  unfold symbol_edges.
  destruct (Nat.leb_spec 6 (String.length symbol)) as [Hlen|Hlen];
    [|by intros ?%elem_of_nil].
  destruct (price data) as [p|]; [|by intros ?%elem_of_nil].
  destruct (Qltb 0 p) eqn:E; [|by intros ?%elem_of_nil].
  apply Qltb_lt in E.
  destruct (split_symbol symbol) as [base quote].
  intros [Heq|Heq%list_elem_of_singleton]%elem_of_cons;
    injection Heq as -> -> ->; exists p; eauto 10.
Qed.



Lemma table_currencies_elem lp symbol data :
  (symbol, data) ∈ lp → (6 ≤ String.length symbol)%nat →
  (split_symbol symbol).1 ∈ table_currencies lp
  ∧ (split_symbol symbol).2 ∈ table_currencies lp.
Proof.
  intros Hin Hlen. unfold table_currencies.
  assert (∀ c, c ∈ symbol_currencies (symbol, data) →
               c ∈ ⋃ (symbol_currencies <$> lp)) as Hsub.
  { intros c Hc. apply elem_of_union_list.
    exists (symbol_currencies (symbol, data)). split; [|done].
    by apply list_elem_of_fmap_2. }
  unfold symbol_currencies in Hsub. cbn [fst snd] in Hsub.
  rewrite (proj2 (Nat.leb_le 6 (String.length symbol)) Hlen) in Hsub.
  split; apply Hsub.
  - apply elem_of_union_l. by apply elem_of_singleton.
  - apply elem_of_union_r. by apply elem_of_singleton.
Qed.




(** ** Where rates and edges come from *)


(** Every edge of the graph comes from a quote of positive price. *)
Lemma build_graph_edges_positive lp fee graph currencies u v w :
  fee < 1 →
  build_graph lp fee = Ok (graph, currencies) →
  (u, v, w) ∈ graph_edges graph →
  ∃ symbol data p,
    (symbol, data) ∈ lp ∧ price data = Some p ∧ 0 < p
    ∧ (6 ≤ String.length symbol)%nat
    ∧ ((split_symbol symbol = (u, v) ∧ w = LogFloat.NegLog (p * (1 - fee)))
       ∨ (split_symbol symbol = (v, u) ∧ w = LogFloat.NegLog (1 / p * (1 - fee)))).
Proof.
  intros Hfee. rewrite build_graph_spec by done. intros [= <- <-].
  rewrite graph_edges_of_edges.
  intros ([symbol data] & Hin & Hedge)%list_elem_of_In%in_flat_map.
  apply list_elem_of_In in Hin, Hedge.
  apply symbol_edges_inv in Hedge as (p & Hp & Hpos & Hrest).
  exists symbol, data, p. eauto.
Qed.




(** ** Termination of [reconstruct_cycle] *)

Lemma iter_pred_snoc preds n c :
  iter_pred preds (S n) c = iter_pred preds n c ≫= pred_of preds.
Proof.
  revert c. induction n as [|n IH]; intros c.
  - simpl. by destruct (pred_of preds c).
  - change (iter_pred preds (S (S n)) c)
      with (pred_of preds c ≫= iter_pred preds (S n)).
    cbn [iter_pred]. destruct (pred_of preds c) as [d|]; [|done].
    simpl. apply IH.
Qed.

Lemma pred_of_Some preds c next :
  preds !! c = Some (Some next) ↔ pred_of preds c = Some next.
Proof.
  unfold pred_of. destruct (preds !! c) as [[d|]|]; simpl; split; congruence.
Qed.

(** The first loop stops within its fuel: every turn adds to [visited]
    a key of [predecessors] that was not in it. *)
Lemma find_cycle_start_fuel fuel preds visited current :
  (size (dom preds ∖ visited) < fuel)%nat →
  find_cycle_start fuel preds visited current ≠ Raise OutOfFuel.
Proof.
  revert visited current. induction fuel as [|fuel IH]; intros visited current Hsize.
  { lia. }
  simpl. destruct (decide (current ∈ visited)) as [|Hnotin]; [done|].
  unfold getitem. destruct (preds !! current) as [[next|]|] eqn:Hget; simpl; try done.
  apply IH.
  assert (dom preds ∖ ({[current]} ∪ visited) ⊂ dom preds ∖ visited) as Hsub.
  { assert (current ∈ dom preds) by (apply elem_of_dom; by rewrite Hget).
    split.
    - intros x. rewrite !elem_of_difference, elem_of_union. tauto.
    - intros Hsub. specialize (Hsub current).
      rewrite !elem_of_difference, elem_of_union, elem_of_singleton in Hsub. tauto. }
  apply subset_size in Hsub. lia.
Qed.

(** The vertex at which the first loop stops lies on a cycle of the
    predecessors. *)
Lemma find_cycle_start_on_cycle fuel preds visited current s :
  visited ⊆ dom preds →
  (∀ x, x ∈ visited →
     ∃ n, (1 ≤ n ≤ size visited)%nat ∧ iter_pred preds n x = Some current) →
  find_cycle_start fuel preds visited current = Ok (Some s) →
  ∃ n, (1 ≤ n ≤ size preds)%nat ∧ iter_pred preds n s = Some s.
Proof.
  revert visited current.
  induction fuel as [|fuel IH]; intros visited current Hdom Hinv; simpl.
  - destruct (decide (current ∈ visited)) as [Hin|]; [|discriminate].
    intros [= <-]. destruct (Hinv _ Hin) as (n & Hn & Hiter).
    exists n. split; [|done].
    apply subseteq_size in Hdom. rewrite size_dom in Hdom. lia.
  - destruct (decide (current ∈ visited)) as [Hin|Hnotin].
    + intros [= <-]. destruct (Hinv _ Hin) as (n & Hn & Hiter).
      exists n. split; [|done].
      apply subseteq_size in Hdom. rewrite size_dom in Hdom. lia.
    + unfold getitem.
      destruct (preds !! current) as [[next|]|] eqn:Hget; simpl; try discriminate.
      assert (size ({[current]} ∪ visited) = S (size visited)) as Hsize.
      { rewrite size_union by (intros x; rewrite elem_of_singleton; by intros ->).
        by rewrite size_singleton. }
      apply IH.
      * intros x. rewrite elem_of_union, elem_of_singleton. intros [->|Hx].
        -- apply elem_of_dom. by rewrite Hget.
        -- by apply Hdom.
      * intros x. rewrite elem_of_union, elem_of_singleton, Hsize. intros [->|Hx].
        -- exists 1%nat. split; [lia|].
           simpl. apply pred_of_Some in Hget. by rewrite Hget.
        -- destruct (Hinv _ Hx) as (n & Hn & Hiter).
           exists (S n). split; [lia|].
           rewrite iter_pred_snoc, Hiter. simpl. by apply pred_of_Some.
Qed.

(** The second loop stops within its fuel when [cycle_start] is at most
    [fuel] steps away. *)
Lemma collect_cycle_fuel fuel preds s cycle current m :
  iter_pred preds m current = Some s → (m ≤ fuel)%nat →
  ∃ cyc, collect_cycle fuel preds s cycle (Some current) = Ok cyc.
Proof.
  revert cycle current m.
  induction fuel as [|fuel IH]; intros cycle current m Hiter Hm; simpl.
  - destruct (decide (Some current = Some s)) as [|Hne]; [eauto|].
    assert (m = 0)%nat as -> by lia. simpl in Hiter. congruence.
  - destruct (decide (Some current = Some s)) as [|Hne]; [eauto|].
    destruct m as [|m]; [simpl in Hiter; congruence|].
    simpl in Hiter.
    destruct (pred_of preds current) as [next|] eqn:Hpred; [|discriminate].
    apply pred_of_Some in Hpred. unfold getitem. rewrite Hpred. simpl.
    apply (IH _ _ m); [done | lia].
Qed.

(** [reconstruct_cycle] is given fuel enough: both loops stop. *)
Lemma reconstruct_cycle_terminates preds start_vertex :
  reconstruct_cycle preds start_vertex ≠ Raise OutOfFuel.
Proof.
  unfold reconstruct_cycle.
  destruct (find_cycle_start (S (size preds)) preds ∅ start_vertex)
    as [[s|]|e] eqn:Hfind; simpl; [| done |].
  - apply find_cycle_start_on_cycle in Hfind as (n & Hn & Hiter).
    + destruct n as [|n]; [lia|]. simpl in Hiter.
      destruct (pred_of preds s) as [next|] eqn:Hpred; [|discriminate].
      apply pred_of_Some in Hpred. unfold getitem. rewrite Hpred. simpl.
      destruct (collect_cycle_fuel (size preds) preds s [s] next n Hiter) as [cyc ->];
        [lia | done].
    + apply empty_subseteq.
    + intros x Hx. by apply not_elem_of_empty in Hx.
  - intros [= ->]. revert Hfind. apply find_cycle_start_fuel.
    assert (dom preds ∖ ∅ ⊆ dom preds) as Hsub
      by (intros x; rewrite elem_of_difference; tauto).
    apply subseteq_size in Hsub. rewrite size_dom in Hsub. lia.
Qed.

(** ** Loops that return early *)



Lemma for_return_Some_inv {A R} (body : A → res (option R)) (l : list A) (r : R) :
  for_return body l = Ok (Some r) →
  ∃ before x after,
    l = before ++ x :: after
    ∧ (∀ y, y ∈ before → body y = Ok None)
    ∧ body x = Ok (Some r).
Proof.
  induction l as [|x l IH]; simpl; [discriminate|].
  destruct (body x) as [[v|]|e] eqn:Hx; simpl; [| |discriminate].
  - intros [= ->]. exists [], x, l. split; [done|]. split; [|done].
    intros y Hy. by apply elem_of_nil in Hy.
  - intros (before & y & after & -> & Hbefore & Hy)%IH.
    exists (x :: before), y, after. split; [done|]. split; [|done].
    intros z [->|Hz]%elem_of_cons; [done | by apply Hbefore].
Qed.

Lemma for_return_None_inv {A R} (body : A → res (option R)) (l : list A) :
  for_return body l = Ok None → ∀ x, x ∈ l → body x = Ok None.
Proof.
  induction l as [|x l IH]; simpl; intros Hl y Hy.
  { by apply elem_of_nil in Hy. }
  destruct (body x) as [[v|]|e] eqn:Hx; simpl in Hl; try discriminate.
  apply elem_of_cons in Hy as [->|Hy]; [done | by apply IH].
Qed.

(** The two nested loops over the graph are one loop over its edges. *)
Lemma for_return_graph_edges {R} (body : string → string * LogFloat.t → res (option R))
    (graph : graph_t) :
  for_return (fun '(u, edges) => for_return (body u) edges) graph
  = for_return (fun '(u, v, w) => body u (v, w)) (graph_edges graph).
Proof.
  induction graph as [|[u edges] graph IH]; simpl; [done|].
  rewrite IH. clear IH.
  induction edges as [|[v w] edges IH]; simpl.
  - done.
  - destruct (body u (v, w)) as [[r|]|e]; simpl; [done | apply IH | done].
Qed.

(** ** The negative-cycle check *)

(** An edge on which the check returns with a call: the edge still
    relaxes, the cycle is reconstructed, and its replayed profit is
    above 1. *)
Lemma check_edge_call lp fee now distances predecessors u v w call :
  check_edge lp fee now distances predecessors u (v, w) = Ok (Some (Some call)) →
  ∃ du dv cycle profit,
    getitem distances u = Ok du ∧ getitem distances v = Ok dv
    ∧ LogFloat.ltb (LogFloat.add du w) dv = true
    ∧ reconstruct_cycle predecessors v = Ok (Some cycle) ∧ cycle ≠ []
    ∧ calculate_cycle_profit lp fee cycle = Ok profit ∧ 1 < profit
    ∧ call = {| cc_cycle := cycle; cc_trade_amount := 100;
                cc_net_profit := profit - 1; cc_timestamp := now |}.
Proof.
  unfold check_edge.
  destruct (getitem distances u) as [du|] eqn:Hu; [|discriminate].
  destruct (getitem distances v) as [dv|] eqn:Hv; [|discriminate]. simpl.
  destruct (LogFloat.ltb _ _) eqn:Hlt; [|discriminate].
  destruct (reconstruct_cycle predecessors v) as [[[|c cs]|]|] eqn:Hrec;
    simpl; try discriminate.
  destruct (calculate_cycle_profit lp fee (c :: cs)) as [profit|] eqn:Hprofit;
    simpl; [|discriminate].
  destruct (Qltb 1 profit) eqn:Hgt; [|discriminate].
  apply Qltb_lt in Hgt. intros [= <-].
  exists du, dv, (c :: cs), profit. repeat (split; [done|]). done.
Qed.



(** What a start vertex decides: the check returns at the first edge,
    in the order of the graph, that still relaxes. *)
Lemma bellman_ford_from_first_edge lp fee now graph currencies start outcome :
  bellman_ford_from lp fee now graph currencies start = Ok (Some outcome) →
  ∃ distances predecessors before u v w after,
    relax_from graph currencies start = Ok (distances, predecessors)
    ∧ graph_edges graph = before ++ (u, v, w) :: after
    ∧ (∀ u' v' w', (u', v', w') ∈ before →
       check_edge lp fee now distances predecessors u' (v', w') = Ok None)
    ∧ check_edge lp fee now distances predecessors u (v, w) = Ok (Some outcome).
Proof.
  unfold bellman_ford_from.
  destruct (relax_from graph currencies start) as [[distances predecessors]|];
    simpl; [|discriminate].
  rewrite (for_return_graph_edges (check_edge lp fee now distances predecessors)).
  intros (before & [[u v] w] & after & Hedges & Hbefore & Hret)%for_return_Some_inv.
  exists distances, predecessors, before, u, v, w, after.
  split; [done|]. split; [done|]. split; [|done].
  intros u' v' w' Hin. apply (Hbefore _ Hin).
Qed.

(** ** The loops of the model are given fuel enough *)















(** ** A call that returns at an edge without a cycle *)


(** ** The clock does not choose the cycle *)









(** ** The detection call returns *)

Lemma for_each_total {A St} (P : St → Prop) (body : St → A → res St) (l : list A)
    (s : St) :
  P s →
  (∀ s x, P s → x ∈ l → ∃ s', body s x = Ok s' ∧ P s') →
  ∃ s', for_each body s l = Ok s' ∧ P s'.
Proof.
  revert s. induction l as [|x l IH]; intros s Hs Hbody; simpl; [eauto|].
  destruct (Hbody s x Hs (list_elem_of_here _ _)) as (s' & -> & Hs'). simpl.
  apply IH; [done|]. intros s'' y Hs'' Hy. apply Hbody; [done|].
  by apply list_elem_of_further.
Qed.


Lemma graph_edges_elem (graph : graph_t) u edges v w :
  (u, edges) ∈ graph → (v, w) ∈ edges → (u, v, w) ∈ graph_edges graph.
Proof.
  intros Hu Hv. unfold graph_edges. apply list_elem_of_In, in_flat_map.
  exists (u, edges). split; [by apply list_elem_of_In|].
  apply list_elem_of_In.
  by apply (list_elem_of_fmap_2 (fun '(v, w) => (u, v, w)) edges (v, w)).
Qed.

(** The graph that the call builds is over its set of currencies. *)
Lemma build_graph_ok lp fee graph currencies :
  fee < 1 → build_graph lp fee = Ok (graph, currencies) → graph_ok currencies graph.
Proof.
  intros Hfee Hbuild u v w Hedge.
  destruct (build_graph_edges_positive _ _ _ _ _ _ _ Hfee Hbuild Hedge)
    as (symbol & data & p & Hin & Hp & Hpos & Hlen & Hsplit).
  rewrite build_graph_spec in Hbuild by done. injection Hbuild as _ <-.
  destruct (table_currencies_elem _ _ _ Hin Hlen) as [Hbase Hquote].
  pose proof (Qinv_pos _ Hpos).
  destruct Hsplit as [[Hs ->]|[Hs ->]]; rewrite Hs in Hbase, Hquote; simpl in *.
  - split; [done|]. split; [done|]. qnra.
  - split; [done|]. split; [done|]. qnra.
Qed.

Lemma relax_edge_total cs st u v w :
  bf_inv cs st → u ∈ cs → v ∈ cs → 0 < LogFloat.arg w →
  ∃ st', relax_edge u st (v, w) = Ok st' ∧ bf_inv cs st'.
Proof.
  destruct st as [distances predecessors].
  intros (Hd & Hp & Hwf & Hpred) Hu Hv Hw. simpl in *.
  unfold relax_edge, getitem.
  assert (is_Some (distances !! u)) as [du Hdu] by (apply elem_of_dom; by rewrite Hd).
  assert (is_Some (distances !! v)) as [dv Hdv] by (apply elem_of_dom; by rewrite Hd).
  rewrite Hdu, Hdv. simpl.
  destruct (LogFloat.ltb _ _); eexists; (split; [reflexivity|]).
  - split; [|split; [|split]]; simpl.
    + rewrite dom_insert_L, Hd. apply subseteq_union_1_L.
      intros x. rewrite elem_of_singleton. by intros ->.
    + rewrite dom_insert_L, Hp. apply subseteq_union_1_L.
      intros x. rewrite elem_of_singleton. by intros ->.
    + intros c x. rewrite lookup_insert. case_decide.
      * intros [= <-]. apply add_wf; [by eapply Hwf|].
        unfold LogFloat.wf. by apply Qlt_le_weak.
      * apply Hwf.
    + intros c q. rewrite lookup_insert. case_decide.
      * by intros [= <-].
      * apply Hpred.
  - done.
Qed.

Lemma relax_pass_total cs graph st :
  graph_ok cs graph → bf_inv cs st →
  ∃ st', relax_pass graph st = Ok st' ∧ bf_inv cs st'.
Proof.
  intros Hgraph Hst. unfold relax_pass.
  apply (for_each_total (bf_inv cs)); [done|].
  intros st1 [u edges] Hst1 Hu.
  apply (for_each_total (bf_inv cs)); [done|].
  intros st2 [v w] Hst2 Hv.
  destruct (Hgraph u v w (graph_edges_elem _ _ _ _ _ Hu Hv)) as (? & ? & ?).
  by apply relax_edge_total.
Qed.

(** The passes from a start vertex raise no exception. *)
Lemma relax_from_total cs graph start :
  graph_ok cs graph → start ∈ cs →
  ∃ st, relax_from graph cs start = Ok st ∧ bf_inv cs st.
Proof.
  intros Hgraph Hstart. unfold relax_from.
  apply (for_each_total (bf_inv cs)).
  - split; [|split; [|split]]; simpl.
    + rewrite dom_insert_L, dom_gset_to_gmap. apply subseteq_union_1_L.
      intros x. rewrite elem_of_singleton. by intros ->.
    + apply dom_gset_to_gmap.
    + intros c x. rewrite lookup_insert. case_decide.
      * intros [= <-]. by unfold LogFloat.wf.
      * intros [_ <-]%lookup_gset_to_gmap_Some. by unfold LogFloat.wf.
    + intros c q [_ [=]]%lookup_gset_to_gmap_Some.
  - intros st _ Hst _. by apply relax_pass_total.
Qed.








(** The comparison that relaxes an edge is the comparison of the real
    numbers: of the distance of [u] plus the weight with the distance
    of [v]. *)
Lemma relaxes_as_reals cs st u v w du dv :
  bf_inv cs st → 0 < LogFloat.arg w →
  st.1 !! u = Some du → st.1 !! v = Some dv →
  LogFloat.ltb (LogFloat.add du w) dv = true
  ↔ LogFloat.ext_lt
      (LogFloat.ext_add (LogFloat.to_R du) (LogFloat.to_R w)) (LogFloat.to_R dv).
Proof.
  intros (_ & _ & Hwf & _) Hw Hu Hv.
  assert (LogFloat.wf w) as Hwfw by (unfold LogFloat.wf; by apply Qlt_le_weak).
  pose proof (Hwf _ _ Hu) as Hwfu. pose proof (Hwf _ _ Hv) as Hwfv.
  rewrite <- add_to_R by done.
  apply ltb_to_R; [by apply add_wf | done].
Qed.

(** ** The detection call *)



(** * Further properties *)

(** ** Pair symbols *)

Lemma substring_0_0 (s : string) : String.substring 0 0 s = ""%string.
Proof. by destruct s. Qed.

Lemma substring_full (s : string) : String.substring 0 (String.length s) s = s.
Proof. induction s as [|c s IH]; simpl; [done | by rewrite IH]. Qed.

Lemma substring_split (s : string) (n : nat) :
  String.substring 0 n s +:+ String.substring n (String.length s - n) s = s.
Proof.
  revert n. induction s as [|c s IH]; intros n.
  - by destruct n.
  - destruct n as [|n].
    + by rewrite substring_0_0, Nat.sub_0_r, substring_full.
    + simpl.
      change (String c (String.substring 0 n s
                        +:+ String.substring n (String.length s - n) s)
              = String c s).
      by rewrite IH.
Qed.

Lemma endswith_inv (s suffix : string) :
  endswith s suffix = true →
  (String.length suffix ≤ String.length s)%nat
  ∧ String.substring (String.length s - String.length suffix) (String.length suffix) s
    = suffix.
Proof.
  unfold endswith. intros [Hlen Heq]%andb_true_iff.
  split; [by apply Nat.leb_le | by apply String.eqb_eq].
Qed.

Lemma split_symbol_append (symbol base quote : string) :
  split_symbol symbol = (base, quote) → base +:+ quote = symbol.
Proof.
  unfold split_symbol.
  destruct (endswith symbol "USDT") eqn:E; intros [= <- <-].
  - apply endswith_inv in E as [Hlen Hsuffix]. simpl in Hlen, Hsuffix.
    unfold slice_drop_last.
    rewrite <- (substring_split symbol (String.length symbol - 4)) at 3.
    f_equal. rewrite <- Hsuffix at 1. f_equal. lia.
  - apply substring_split.
Qed.

(** X1.  Splitting a pair symbol loses nothing: the base followed by
    the quote is the symbol again, so the direct symbol that the replay
    of a cycle looks up for a leg from base to quote is the symbol the
    leg came from.  A symbol that ends with USDT has quote USDT; any
    other symbol of at least three characters has a base of exactly
    three. *)
Theorem X1_split_symbol_concat (symbol base quote : string) :
  split_symbol symbol = (base, quote) →
  base +:+ quote = symbol
  ∧ (endswith symbol "USDT" = true → quote = "USDT"%string)
  ∧ (endswith symbol "USDT" = false → (3 ≤ String.length symbol)%nat →
     String.length base = 3%nat).
Proof.
  intros Hsplit. split; [by apply split_symbol_append|].
  unfold split_symbol in Hsplit.
  destruct (endswith symbol "USDT") eqn:E; injection Hsplit as <- <-.
  - by split.
  - split; [done|].
    intros _ Hlen. unfold slice_to.
    destruct symbol as [|a [|b [|c rest]]]; simpl in Hlen; try lia.
    simpl. by destruct rest.
Qed.

Lemma X1_split_symbol_concat_witness :
  ("DOG" +:+ "EBTC" = "DOGEBTC")%string
  ∧ (endswith "DOGEBTC" "USDT" = true → "EBTC" = "USDT")%string
  ∧ (endswith "DOGEBTC" "USDT" = false → (3 ≤ String.length "DOGEBTC")%nat →
     String.length "DOG" = 3%nat).
Proof. apply (X1_split_symbol_concat "DOGEBTC" "DOG" "EBTC"). reflexivity. Defined.

(** ** The resolver in both directions *)



(** ** Every call of the triangular check is justified *)

Lemma check_triplet_Some_inv lp fee now A B C call :
  check_triplet lp fee now (A, B, C) = Ok (Some call) →
  ∃ rAB rBC rCA,
    resolve lp A B = Ok (Some rAB) ∧ resolve lp B C = Ok (Some rBC)
    ∧ resolve lp C A = Ok (Some rCA)
    ∧ 1 < rAB * rBC * rCA * (1 - fee) ^ 3
    ∧ call = {| tc_triplet := (A, B, C); tc_trade_amount := 100;
                tc_rate_AB := rAB; tc_rate_BC := rBC; tc_rate_CA := rCA;
                tc_net_profit := rAB * rBC * rCA * (1 - fee) ^ 3 - 1;
                tc_timestamp := now |}.
Proof.
  unfold check_triplet, resolve.
  destruct (negb _ || negb _ || negb _); [discriminate|].
  destruct (get_rate lp A B (pair_for lp A B)) as [[rAB|]|]; try discriminate;
  destruct (get_rate lp B C (pair_for lp B C)) as [[rBC|]|]; try discriminate;
  destruct (get_rate lp C A (pair_for lp C A)) as [[rCA|]|]; try discriminate.
  simpl. destruct (Qltb 1 _) eqn:E; [|discriminate].
  apply Qltb_lt in E. intros [= <-].
  exists rAB, rBC, rCA. repeat (split; [done|]). done.
Qed.

Lemma calls_of_sublist lp fee now triplets :
  map tc_triplet (flat_map (calls_of lp fee now) triplets) `sublist_of` triplets.
Proof.
  induction triplets as [|t ts IH]; simpl; [done|].
  rewrite map_app. unfold calls_of at 1.
  destruct (check_triplet lp fee now t) as [[call|]|] eqn:Hchk; simpl.
  - assert (tc_triplet call = t) as ->.
    { apply (calls_of_triplet lp fee now). unfold calls_of. rewrite Hchk.
      apply list_elem_of_here. }
    by apply sublist_skip.
  - by apply sublist_cons.
  - by apply sublist_cons.
Qed.

(** X3.  The triangular check raises no exception on any table and any
    list of triplets.  Its calls on the paper trader follow the order
    of the configured triplets, at most one call per entry of the list,
    and every call is justified: the three rates it hands over are the
    rates resolved from the table, their product after three fees is
    above 1, the net profit is that product minus 1 and so is positive,
    and the trade amount is 100. *)
Theorem X3_triangular_calls_justified (lp : price_table) (fee : Q) (now : Z)
    (triplets : list (string * string * string)) :
  ∃ calls,
    run_triangular_arbitrage_check lp fee now triplets = Ok calls
    ∧ map tc_triplet calls `sublist_of` triplets
    ∧ ∀ call, call ∈ calls →
        tc_triplet call ∈ triplets
        ∧ resolve lp (tc_triplet call).1.1 (tc_triplet call).1.2
          = Ok (Some (tc_rate_AB call))
        ∧ resolve lp (tc_triplet call).1.2 (tc_triplet call).2
          = Ok (Some (tc_rate_BC call))
        ∧ resolve lp (tc_triplet call).2 (tc_triplet call).1.1
          = Ok (Some (tc_rate_CA call))
        ∧ tc_net_profit call
          = tc_rate_AB call * tc_rate_BC call * tc_rate_CA call * (1 - fee) ^ 3 - 1
        ∧ 0 < tc_net_profit call
        ∧ tc_trade_amount call = 100
        ∧ tc_timestamp call = now.
Proof.
  exists (flat_map (calls_of lp fee now) triplets).
  split; [apply run_triangular_calls|]. split; [apply calls_of_sublist|].
  intros call ([[A B] C] & Hin & Hcall)%list_elem_of_In%in_flat_map.
  apply list_elem_of_In in Hin.
  unfold calls_of in Hcall.
  destruct (check_triplet lp fee now (A, B, C)) as [[call'|]|] eqn:Hchk;
    try by destruct Hcall.
  destruct Hcall as [<-|[]].
  apply check_triplet_Some_inv in Hchk
    as (rAB & rBC & rCA & HAB & HBC & HCA & Hgt & ->). simpl.
  repeat (split; [done|]). split; [|done].
  qlra.
Qed.

(** ** The cycle that [reconstruct_cycle] returns *)

Lemma iter_pred_add preds a b c :
  iter_pred preds (a + b) c = iter_pred preds a c ≫= iter_pred preds b.
Proof.
  revert c. induction a as [|a IH]; intros c; [done|].
  cbn [Nat.add iter_pred]. destruct (pred_of preds c) as [d|]; [|done].
  simpl. apply IH.
Qed.

Lemma find_cycle_start_reach fuel preds visited current s :
  find_cycle_start fuel preds visited current = Ok (Some s) →
  ∃ n, iter_pred preds n current = Some s.
Proof.
  revert visited current. induction fuel as [|fuel IH]; intros visited current; simpl.
  - destruct (decide (current ∈ visited)); [|discriminate].
    intros [= <-]. by exists 0%nat.
  - destruct (decide (current ∈ visited)).
    { intros [= <-]. by exists 0%nat. }
    unfold getitem.
    destruct (preds !! current) as [[next|]|] eqn:Hget; simpl; try discriminate.
    intros [m Hm]%IH. exists (S m). simpl.
    apply pred_of_Some in Hget. by rewrite Hget.
Qed.

(** What the second loop appends: the walk from [current] along the
    predecessors, up to and without [cycle_start]. *)
Lemma collect_cycle_spec fuel preds s acc current cyc :
  collect_cycle fuel preds s acc current = Ok cyc →
  ∃ chain,
    cyc = acc ++ chain
    ∧ (∀ k c, chain !! k = Some c →
         (current ≫= iter_pred preds k) = Some c ∧ c ≠ s)
    ∧ (current ≫= iter_pred preds (length chain)) = Some s.
Proof.
  revert acc current. induction fuel as [|fuel IH]; intros acc current; simpl.
  - destruct (decide (current = Some s)) as [->|]; [|discriminate].
    intros [= <-]. exists []. rewrite app_nil_r. split; [done|]. split; [|done].
    intros k c Hk. by rewrite lookup_nil in Hk.
  - destruct (decide (current = Some s)) as [->|Hne].
    { intros [= <-]. exists []. rewrite app_nil_r. split; [done|]. split; [|done].
      intros k c Hk. by rewrite lookup_nil in Hk. }
    destruct current as [c0|]; [|discriminate].
    unfold getitem. destruct (preds !! c0) as [next|] eqn:Hget; [|discriminate].
    simpl. intros (chain & -> & Hchain & Hend)%IH.
    assert (pred_of preds c0 = next) as Hpred by (unfold pred_of; by rewrite Hget).
    exists (c0 :: chain). split; [by rewrite <- app_assoc|]. split.
    + intros [|k] c Hk; simpl in Hk.
      * injection Hk as <-. split; [done | congruence].
      * simpl. rewrite Hpred. by apply Hchain.
    + simpl. by rewrite Hpred.
Qed.

(** The list that [reconstruct_cycle] reverses: [cycle_start], its
    predecessor, the predecessor of that one, and so on until the next
    predecessor is [cycle_start] again. *)
Lemma reconstruct_cycle_inv preds v cycle :
  reconstruct_cycle preds v = Ok (Some cycle) →
  ∃ s L,
    cycle = rev L ∧ L !! 0%nat = Some s
    ∧ (∀ k c, L !! k = Some c → iter_pred preds k s = Some c)
    ∧ iter_pred preds (length L) s = Some s
    ∧ (∀ k c, (1 ≤ k)%nat → L !! k = Some c → c ≠ s)
    ∧ ∃ n, iter_pred preds n v = Some s.
Proof.
  unfold reconstruct_cycle.
  destruct (find_cycle_start _ _ _ _) as [[s|]|] eqn:Hfind; simpl; try discriminate.
  apply find_cycle_start_reach in Hfind.
  unfold getitem. destruct (preds !! s) as [current|] eqn:Hget; [|discriminate].
  simpl.
  destruct (collect_cycle _ _ _ _ _) as [cyc|] eqn:Hcollect; [|discriminate].
  simpl. intros [= <-].
  apply collect_cycle_spec in Hcollect as (chain & -> & Hchain & Hend).
  assert (pred_of preds s = current) as Hpred by (unfold pred_of; by rewrite Hget).
  exists s, (s :: chain). split; [done|]. split; [done|].
  split; [|split; [|split; [|done]]].
  - intros [|k] c Hk; simpl in Hk; [by injection Hk as <-|].
    simpl. rewrite Hpred. by apply Hchain.
  - simpl. by rewrite Hpred.
  - intros [|k] c Hk1 Hk; [lia|]. simpl in Hk. by apply (Hchain k c).
Qed.

Lemma cycle_list_NoDup preds s (L : list string) :
  (∀ k c, L !! k = Some c → iter_pred preds k s = Some c) →
  iter_pred preds (length L) s = Some s →
  (∀ k c, (1 ≤ k)%nat → L !! k = Some c → c ≠ s) →
  NoDup L.
Proof.
  intros Hiter Hend Hne. apply NoDup_alt.
  assert (∀ i j x, (i < j)%nat → L !! i = Some x → L !! j = Some x → False) as Hlt.
  { intros i j x Hij Hi Hj.
    pose proof (lookup_lt_Some _ _ _ Hj) as Hjlen.
    assert (is_Some (L !! (i + (length L - j))%nat)) as [c Hc]
      by (apply lookup_lt_is_Some; lia).
    apply (Hne _ c) in Hc as Hcs; [|lia]. apply Hcs.
    apply Hiter in Hc. rewrite iter_pred_add, (Hiter _ _ Hi) in Hc.
    rewrite <- (Hiter _ _ Hj), <- iter_pred_add in Hc.
    replace (j + (length L - j))%nat with (length L) in Hc by lia.
    congruence. }
  intros i j x Hi Hj.
  destruct (Nat.lt_trichotomy i j) as [Hij|[Hij|Hij]]; [|done|].
  - by destruct (Hlt i j x).
  - by destruct (Hlt j i x).
Qed.

Lemma cycle_list_links preds s (L : list string) i X Y :
  (∀ k c, L !! k = Some c → iter_pred preds k s = Some c) →
  L !! 0%nat = Some s →
  iter_pred preds (length L) s = Some s →
  reverse L !! i = Some X →
  reverse L !! ((i + 1) mod length L)%nat = Some Y →
  preds !! Y = Some (Some X).
Proof.
  intros Hiter Hhead Hend [HX Hi]%reverse_lookup_Some [HY Hi']%reverse_lookup_Some.
  apply pred_of_Some. apply Hiter in HX, HY.
  destruct (decide (i + 1 < length L)%nat) as [Hlt|Hge].
  - rewrite Nat.mod_small in HY by done.
    replace (length L - S i)%nat with (S (length L - S (i + 1))) in HX by lia.
    rewrite iter_pred_snoc, HY in HX. exact HX.
  - assert (i + 1 = length L)%nat as Heq by lia.
    rewrite Heq, Nat.Div0.mod_same in HY.
    replace (length L - S i)%nat with 0%nat in HX by lia.
    simpl in HX. injection HX as <-.
    destruct (length L) as [|m] eqn:Hlen; [lia|].
    replace (S m - 1)%nat with m in HY by lia.
    rewrite iter_pred_snoc, HY in Hend. exact Hend.
Qed.

(** X4.  When [reconstruct_cycle] returns a cycle, the cycle is not
    empty, no currency occurs twice in it, each currency is the
    predecessor of the one that follows it, the last one being the
    predecessor of the first, and every currency of the cycle is
    reached from the start vertex by following predecessors. *)
Theorem X4_reconstruct_cycle_sound (preds : gmap string (option string))
    (start_vertex : string) (cycle : list string) :
  reconstruct_cycle preds start_vertex = Ok (Some cycle) →
  cycle ≠ []
  ∧ NoDup cycle
  ∧ (∀ i X Y,
       cycle !! i = Some X → cycle !! ((i + 1) mod length cycle)%nat = Some Y →
       preds !! Y = Some (Some X))
  ∧ (∀ c, c ∈ cycle → ∃ n, iter_pred preds n start_vertex = Some c).
Proof.
  intros (s & L & -> & Hhead & Hiter & Hend & Hne & n0 & Hreach)%reconstruct_cycle_inv.
  rewrite rev_alt. change (rev_append L []) with (reverse L).
  split; [|split; [|split]].
  - destruct L; [done|]. intros Hrev%(f_equal length).
    rewrite length_reverse in Hrev. discriminate.
  - rewrite reverse_Permutation. by apply (cycle_list_NoDup preds s).
  - intros i X Y. rewrite length_reverse. by apply (cycle_list_links preds s).
  - intros c Hc. rewrite reverse_Permutation in Hc.
    apply list_elem_of_lookup in Hc as [k Hk].
    apply Hiter in Hk. exists (n0 + k)%nat.
    by rewrite iter_pred_add, Hreach.
Qed.

Lemma X4_reconstruct_cycle_sound_witness :
  ["ETH"; "BTC"]%string ≠ []
  ∧ NoDup ["ETH"; "BTC"]%string
  ∧ (∀ i X Y,
       ["ETH"; "BTC"]%string !! i = Some X →
       ["ETH"; "BTC"]%string !! ((i + 1) mod 2)%nat = Some Y →
       preds_cycle !! Y = Some (Some X))
  ∧ (∀ c, c ∈ ["ETH"; "BTC"]%string → ∃ n, iter_pred preds_cycle n "XRP" = Some c).
Proof.
  apply (X4_reconstruct_cycle_sound preds_cycle "XRP" ["ETH"; "BTC"]%string).
  by vm_compute.
Defined.

(** ** When [reconstruct_cycle] gives no cycle *)

Lemma find_cycle_start_None fuel preds visited current :
  find_cycle_start fuel preds visited current = Ok None →
  ∃ n c, iter_pred preds n current = Some c ∧ preds !! c = Some None.
Proof.
  revert visited current. induction fuel as [|fuel IH]; intros visited current; simpl.
  - by destruct (decide (current ∈ visited)).
  - destruct (decide (current ∈ visited)); [discriminate|].
    unfold getitem.
    destruct (preds !! current) as [[next|]|] eqn:Hget; simpl; try discriminate.
    + intros (m & c & Hm & Hc)%IH. exists (S m), c. split; [|done].
      simpl. apply pred_of_Some in Hget. by rewrite Hget.
    + intros _. by exists 0%nat, current.
Qed.

Lemma find_cycle_start_Raise fuel preds visited current e :
  find_cycle_start fuel preds visited current = Raise e →
  e = OutOfFuel
  ∨ (e = KeyError ∧ ∃ n c, iter_pred preds n current = Some c ∧ preds !! c = None).
Proof.
  revert visited current. induction fuel as [|fuel IH]; intros visited current; simpl.
  - destruct (decide (current ∈ visited)); [discriminate|].
    intros [= <-]. by left.
  - destruct (decide (current ∈ visited)); [discriminate|].
    unfold getitem.
    destruct (preds !! current) as [[next|]|] eqn:Hget; simpl; try discriminate.
    + intros [->|(-> & m & c & Hm & Hc)]%IH; [by left|].
      right. split; [done|]. exists (S m), c. split; [|done].
      simpl. apply pred_of_Some in Hget. by rewrite Hget.
    + intros [= <-]. right. split; [done|]. by exists 0%nat, current.
Qed.

(** X5.  [reconstruct_cycle] terminates on every predecessor mapping,
    cyclic or not.  It answers [None] only when the walk from the start
    vertex along the predecessors reaches a currency whose predecessor
    is [None]; the only exception it can raise is a [KeyError], and
    only when the walk reaches a currency that is not a key of the
    mapping. *)
Theorem X5_reconstruct_cycle_outcomes (preds : gmap string (option string))
    (start_vertex : string) :
  reconstruct_cycle preds start_vertex ≠ Raise OutOfFuel
  ∧ (reconstruct_cycle preds start_vertex = Ok None →
     ∃ n c, iter_pred preds n start_vertex = Some c ∧ preds !! c = Some None)
  ∧ (∀ e, reconstruct_cycle preds start_vertex = Raise e →
     e = KeyError
     ∧ ∃ n c, iter_pred preds n start_vertex = Some c ∧ preds !! c = None).
Proof.
  split; [apply reconstruct_cycle_terminates|].
  unfold reconstruct_cycle.
  destruct (find_cycle_start (S (size preds)) preds ∅ start_vertex)
    as [[s|]|e0] eqn:Hfind; cbn [mbind res_bind].
  - apply find_cycle_start_on_cycle in Hfind as (n & Hn & Hiter).
    2:{ apply empty_subseteq. }
    2:{ intros x Hx. by apply not_elem_of_empty in Hx. }
    destruct n as [|n]; [lia|]. simpl in Hiter.
    destruct (pred_of preds s) as [next|] eqn:Hpred; [|discriminate].
    apply pred_of_Some in Hpred. unfold getitem. rewrite Hpred.
    cbn [mbind res_bind].
    destruct (collect_cycle_fuel (size preds) preds s [s] next n Hiter) as [cyc Hcyc];
      [lia|].
    rewrite Hcyc. split; [discriminate|]. intros e. discriminate.
  - split; [|intros e; discriminate].
    intros _. by apply (find_cycle_start_None _ _ _ _ Hfind).
  - split; [discriminate|]. intros e [= <-].
    destruct (find_cycle_start_Raise _ _ _ _ _ Hfind) as [->|Hkey]; [|exact Hkey].
    exfalso. revert Hfind. apply find_cycle_start_fuel.
    assert (dom preds ∖ ∅ ⊆ dom preds) as Hsub
      by (intros x; rewrite elem_of_difference; tauto).
    apply subseteq_size in Hsub. rewrite size_dom in Hsub. lia.
Qed.

Lemma X5_reconstruct_cycle_outcomes_witness :
  reconstruct_cycle preds_open "ETH" = Ok None
  ∧ ∃ n c, iter_pred preds_open n "ETH" = Some c ∧ preds_open !! c = Some None.
Proof.
  assert (reconstruct_cycle preds_open "ETH" = Ok None) as H by (by vm_compute).
  split; [exact H|].
  exact (proj1 (proj2 (X5_reconstruct_cycle_outcomes preds_open "ETH")) H).
Defined.

(** ** What the relaxation passes keep *)

Lemma for_each_inv {A St} (P : St → Prop) (body : St → A → res St) (l : list A)
    (s s' : St) :
  P s →
  (∀ s x s', P s → x ∈ l → body s x = Ok s' → P s') →
  for_each body s l = Ok s' → P s'.
Proof.
  revert s. induction l as [|x l IH]; intros s Hs Hbody; simpl.
  - by intros [= <-].
  - destruct (body s x) as [s1|] eqn:Hx; simpl; [|discriminate].
    apply IH.
    + by apply (Hbody s x s1 Hs (list_elem_of_here _ _)).
    + intros s2 y s3 Hs2 Hy. apply Hbody; [done|]. by apply list_elem_of_further.
Qed.

Lemma relax_edge_sound graph start st u v w st' :
  (u, v, w) ∈ graph_edges graph →
  bf_sound graph start st →
  relax_edge u st (v, w) = Ok st' →
  bf_sound graph start st'.
Proof.
  destruct st as [d p]. intros Hedge (Hwf & Hlink & Hstart & Hfar). simpl in *.
  unfold relax_edge, getitem.
  destruct (d !! u) as [du|] eqn:Hu; [|discriminate].
  destruct (d !! v) as [dv|] eqn:Hv; [|discriminate]. simpl.
  destruct (LogFloat.ltb _ _) eqn:Hlt; intros [= <-]; [|done].
  apply Qltb_lt in Hlt. simpl in Hlt.
  pose proof (Hwf _ _ Hv) as Hdv. unfold LogFloat.wf in Hdv.
  split; [|split; [|split]]; simpl.
  - intros c x. rewrite lookup_insert. case_decide.
    + intros [= <-]. unfold LogFloat.wf. simpl. qlra.
    + apply Hwf.
  - intros v' u'. rewrite !lookup_insert. case_decide as Heq.
    + subst v'. intros [= <-]. split; [by exists w|].
      eexists. split; [done|]. simpl. qlra.
    + apply Hlink.
  - intros x. rewrite lookup_insert. case_decide as Heq.
    + intros [= <-]. subst v. pose proof (Hstart _ Hv). simpl. qlra.
    + apply Hstart.
  - intros v' Hne. rewrite !lookup_insert. case_decide as Heq; [done|].
    by apply Hfar.
Qed.

Lemma relax_from_sound graph cs start st :
  relax_from graph cs start = Ok st → bf_sound graph start st.
Proof.
  unfold relax_from. apply for_each_inv.
  - split; [|split; [|split]]; simpl.
    + intros c x. rewrite lookup_insert. case_decide.
      * intros [= <-]. by unfold LogFloat.wf.
      * intros [_ <-]%lookup_gset_to_gmap_Some. by unfold LogFloat.wf.
    + intros v u [_ [=]]%lookup_gset_to_gmap_Some.
    + intros x. rewrite lookup_insert_eq. intros [= <-]. simpl. qlra.
    + intros v Hne [Hv _]%lookup_gset_to_gmap_Some.
      rewrite lookup_insert_ne by done. by apply lookup_gset_to_gmap_Some.
  - intros st1 _ st2 Hst1 _. unfold relax_pass. apply for_each_inv; [done|].
    intros st3 [u edges] st4 Hst3 Hu. apply for_each_inv; [done|].
    intros st5 [v w] st6 Hst5 Hv.
    apply relax_edge_sound; [|done]. by apply (graph_edges_elem _ _ edges).
Qed.

(** X6.  From a start vertex among the currencies of a graph over
    them, the relaxation passes raise no exception, and afterwards:
    both dicts still have exactly the currencies as keys; a currency
    that has a predecessor hangs on an edge of the graph from that
    predecessor and has a finite distance; the start vertex has a
    distance of at most 0; a currency other than the start vertex that
    has no predecessor is still at infinite distance. *)
Theorem X6_relaxation_invariants (cs : gset string) (graph : graph_t) (start : string) :
  graph_ok cs graph → start ∈ cs →
  ∃ distances predecessors,
    relax_from graph cs start = Ok (distances, predecessors)
    ∧ dom distances = cs ∧ dom predecessors = cs
    ∧ (∀ v u, predecessors !! v = Some (Some u) →
         (∃ w, (u, v, w) ∈ graph_edges graph)
         ∧ ∃ x, distances !! v = Some x ∧ 0 < LogFloat.arg x)
    ∧ (∃ x, distances !! start = Some x ∧ 1 <= LogFloat.arg x)
    ∧ (∀ v, v ≠ start → predecessors !! v = Some None →
         distances !! v = Some LogFloat.inf).
Proof.
  intros Hgraph Hstart.
  destruct (relax_from_total cs graph start Hgraph Hstart)
    as ([distances predecessors] & Hrelax & Hd & Hp & _).
  simpl in Hd, Hp.
  destruct (relax_from_sound _ _ _ _ Hrelax) as (_ & Hlink & Hzero & Hfar).
  simpl in *.
  exists distances, predecessors. repeat (split; [done|]). split; [|done].
  assert (is_Some (distances !! start)) as [x Hx]
    by (apply elem_of_dom; by rewrite Hd).
  exists x. split; [done|]. by apply Hzero.
Qed.

Lemma X6_relaxation_invariants_witness :
  ∃ distances predecessors,
    relax_from (graph_of_edges (flat_map (symbol_edges default_fee_rate) table_two_way))
      (table_currencies table_two_way) "BTC" = Ok (distances, predecessors)
    ∧ dom distances = table_currencies table_two_way
    ∧ dom predecessors = table_currencies table_two_way
    ∧ (∀ v u, predecessors !! v = Some (Some u) →
         (∃ w, (u, v, w)
               ∈ graph_edges
                   (graph_of_edges
                      (flat_map (symbol_edges default_fee_rate) table_two_way)))
         ∧ ∃ x, distances !! v = Some x ∧ 0 < LogFloat.arg x)
    ∧ (∃ x, distances !! "BTC"%string = Some x ∧ 1 <= LogFloat.arg x)
    ∧ (∀ v, v ≠ "BTC"%string → predecessors !! v = Some None →
         distances !! v = Some LogFloat.inf).
Proof.
  apply X6_relaxation_invariants.
  - apply (build_graph_ok table_two_way default_fee_rate); [reflexivity|].
    by apply build_graph_spec.
  - apply (table_currencies_elem table_two_way "BTCETH" _ (list_elem_of_here _ _)).
    simpl. lia.
Defined.

(** ** The cycle that the detection call trades *)

Lemma tbl_get_elem (lp : price_table) symbol data :
  (symbol, data) ∈ lp → is_Some (tbl_get lp symbol).
Proof.
  induction lp as [|[k d] lp IH]; [by intros ?%elem_of_nil|].
  intros [[= <- <-]|Hin]%elem_of_cons; simpl.
  - rewrite String.eqb_refl. by eexists.
  - destruct (String.eqb k symbol); [by eexists | by apply IH].
Qed.

Lemma run_bellman_ford_Some_inv set_iter lp fee now call :
  run_bellman_ford_arbitrage_check set_iter lp fee now = Ok (Some call) →
  ∃ graph currencies start,
    build_graph lp fee = Ok (graph, currencies)
    ∧ start ∈ set_iter currencies
    ∧ bellman_ford_from lp fee now graph currencies start = Ok (Some (Some call)).
Proof.
  unfold run_bellman_ford_arbitrage_check.
  destruct (build_graph lp fee) as [[graph currencies]|]; [|discriminate]. simpl.
  destruct (for_return _ _) as [[[call'|]|]|] eqn:Hloop; simpl; try discriminate.
  intros [= ->].
  apply for_return_Some_inv in Hloop as (before & start & after & Horder & _ & Hstart).
  exists graph, currencies, start. split; [done|]. split; [|done].
  rewrite Horder. apply elem_of_app. right. apply list_elem_of_here.
Qed.

Lemma legs_elem cycle X Y :
  (X, Y) ∈ legs cycle →
  ∃ i, cycle !! i = Some X ∧ cycle !! ((i + 1) mod length cycle)%nat = Some Y.
Proof.
  intros [i Hi]%list_elem_of_lookup. exists i. by apply legs_lookup.
Qed.

(** X7.  The cycle that the detection call hands to the paper trader
    is not empty and visits no currency twice; its net profit is
    positive and is the replayed profit minus 1; the trade amount is
    100; and every leg of the cycle comes from a quote of the table
    with a positive price, stored under the direct or the inverse
    symbol of the leg: the replay never falls back on the rate 1 that
    it keeps for a leg without symbol. *)
Theorem X7_traded_cycle_in_table (set_iter : gset string → list string)
    (lp : price_table) (fee : Q) (now : Z) (call : CycleCall) :
  fee < 1 →
  run_bellman_ford_arbitrage_check set_iter lp fee now = Ok (Some call) →
  cc_cycle call ≠ []
  ∧ NoDup (cc_cycle call)
  ∧ (∃ profit,
       calculate_cycle_profit lp fee (cc_cycle call) = Ok profit
       ∧ cc_net_profit call = profit - 1)
  ∧ 0 < cc_net_profit call
  ∧ cc_trade_amount call = 100
  ∧ (∀ X Y, (X, Y) ∈ legs (cc_cycle call) →
       ∃ symbol data p,
         (symbol, data) ∈ lp ∧ price data = Some p ∧ 0 < p
         ∧ (symbol = X +:+ Y ∨ symbol = Y +:+ X)
         ∧ is_Some (tbl_get lp symbol)).
Proof.
  intros Hfee (graph & cs & start & Hbuild & _ & Hstart)%run_bellman_ford_Some_inv.
  apply bellman_ford_from_first_edge in Hstart
    as (d & p & before & u & v & w & after & Hrelax & _ & _ & Hedge).
  apply check_edge_call in Hedge
    as (du & dv & cycle & profit & _ & _ & _ & Hrec & Hne & Hprofit & Hgt & ->).
  simpl.
  pose proof (reconstruct_cycle_inv _ _ _ Hrec)
    as (s & L & Hcycle & Hhead & Hiter & Hend & Hnes & _).
  rewrite rev_alt in Hcycle. change (rev_append L []) with (reverse L) in Hcycle.
  split; [done|]. split.
  { rewrite Hcycle, reverse_Permutation. by apply (cycle_list_NoDup p s). }
  split; [by exists profit|]. split; [qlra|]. split; [done|].
  intros X Y (i & HX & HY)%legs_elem.
  rewrite Hcycle in HX, HY. rewrite length_reverse in HY.
  pose proof (cycle_list_links p s L i X Y Hiter Hhead Hend HX HY) as Hlink.
  destruct (relax_from_sound _ _ _ _ Hrelax) as (_ & Hedges & _).
  destruct (Hedges Y X Hlink) as [[w' Hw'] _].
  destruct (build_graph_edges_positive _ _ _ _ _ _ _ Hfee Hbuild Hw')
    as (symbol & data & q & Hin & Hq & Hpos & _ & Hsplit).
  exists symbol, data, q. repeat (split; [done|]). split.
  - destruct Hsplit as [[Hs _]|[Hs _]]; apply split_symbol_append in Hs; auto.
  - by apply (tbl_get_elem lp symbol data).
Qed.

Lemma X7_traded_cycle_in_table_witness :
  ∃ call,
    run_bellman_ford_arbitrage_check iter_reversed table_two_way default_fee_rate 0
    = Ok (Some call)
    ∧ NoDup (cc_cycle call) ∧ 0 < cc_net_profit call.
Proof.
  destruct (run_bellman_ford_arbitrage_check iter_reversed table_two_way
              default_fee_rate 0) as [[call|]|] eqn:Hrun;
    [|by vm_compute in Hrun..].
  exists call. split; [done|].
  destruct (X7_traded_cycle_in_table iter_reversed table_two_way default_fee_rate 0
              call eq_refl Hrun) as (_ & Hnodup & _ & Hpos & _).
  by split.
Defined.

(** ** The shape of the graph *)







(** ** The accounts of the paper trader *)







(** ** One tick of the scheduler *)

Lemma triangular_pass_calls lp fee now triplets trader :
  triangular_pass lp fee now triplets trader
  = (fold_left deliver_triangular (flat_map (calls_of lp fee now) triplets) trader, None).
Proof.
  revert trader. induction triplets as [|t ts IH]; intros trader; simpl; [done|].
  rewrite fold_left_app.
  destruct (check_triplet_no_raise lp fee now t) as [r Hr].
  assert (calls_of lp fee now t = match r with Some call => [call] | None => [] end)
    as -> by (unfold calls_of; rewrite Hr; by destruct r).
  rewrite Hr. destruct r as [call|]; simpl; apply IH.
Qed.

(** X11.  In a tick of the scheduler the triangular check never ends
    the tick: it delivers its calls to the paper trader one after
    another, in the order of the configured triplets, and the cycle
    check then runs on the trader so obtained.  An exception of the
    cycle check is caught with the triangular trades already booked. *)
Theorem X11_tick_composition (set_iter : gset string → list string) (lp : price_table)
    (fee : Q) (triplets : list (string * string * string)) (now : Z)
    (trader : PaperTrader.t) :
  ∃ calls,
    run_triangular_arbitrage_check lp fee now triplets = Ok calls
    ∧ triangular_pass lp fee now triplets trader
      = (fold_left deliver_triangular calls trader, None)
    ∧ detection_tick set_iter lp fee triplets now trader
      = cycle_pass set_iter lp fee now (fold_left deliver_triangular calls trader)
    ∧ (∀ e, run_bellman_ford_arbitrage_check set_iter lp fee now = Raise e →
       detection_tick set_iter lp fee triplets now trader
       = (fold_left deliver_triangular calls trader, Some e)).
Proof.
  exists (flat_map (calls_of lp fee now) triplets).
  split; [apply run_triangular_calls|].
  split; [apply triangular_pass_calls|].
  unfold detection_tick. rewrite triangular_pass_calls.
  split; [done|].
  intros e He. unfold cycle_pass. by rewrite He.
Qed.









(** ** Walks *)










(** ** Bellman-Ford without arbitrage *)
















